(** * Cross-venue dislocation pipeline: event detection and backtest

    A shallow embedding of [scripts/detect_events.py] and
    [scripts/backtest.py].

    Conventions of the embedding:
    - Python [int] is [Z]; Python [float] is modelled by exact rationals [Q]
      (no rounding, no NaN, no infinities); a float division by zero raises
      [ZeroDivisionError] as in Python;
    - a Python exception is the [Raise] branch of [result];
    - a [dict] is an association list in insertion order, because the
      iteration order decides ties in [min]/[max];
    - a list grown with [append] is a Rocq list grown at its end. *)

From Stdlib Require Import ZArith QArith List String Bool Lia Lqa Sorted.
Import ListNotations.

Open Scope Z_scope.

(** ** Python exceptions and results *)

Inductive py_error : Set :=
| ZeroDivisionError
| TypeError
| ValueError
| IndexError.

Inductive result (A : Type) : Type :=
| Ok (a : A)
| Raise (e : py_error).

Arguments Ok {A} a.
Arguments Raise {A} e.

Definition bind {A B : Type} (m : result A) (k : A -> result B) : result B :=
  match m with
  | Ok a => k a
  | Raise e => Raise e
  end.

Notation "x <- m ;; k" := (bind m (fun x => k))
  (at level 61, m at next level, right associativity).

(** Float comparisons, on the rational model. *)
Definition Qgeb (x y : Q) : bool := Qle_bool y x.
Definition Qgtb (x y : Q) : bool := negb (Qle_bool x y).

(** Python float division [x / y]. *)
Definition float_div (x y : Q) : result Q :=
  if Qeq_bool y 0 then Raise ZeroDivisionError else Ok (x / y)%Q.

(** A row of the [ticks] table as the scripts read it:
    [SELECT ts_ms, venue, mid FROM ticks ... ORDER BY ts_ms ASC]. *)
Record tick : Set := Tick {
  tick_ts_ms : Z;
  venue : string;
  mid : Q
}.

(** * scripts/detect_events.py *)

Module DetectEvents.

(** One row of the [metrics] frame (line 64). *)
Record metric_row : Set := MetricRow {
  ts_ms : Z;
  min_venue : string;
  max_venue : string;
  min_mid : Q;
  max_mid : Q;
  spread_bps : Q
}.

(** One entry of [events] (lines 100-110 and 118-128); the venue pair is the
    pair held in [peak_v]. *)
Record event : Set := Event {
  start_ms : Z;
  end_ms : Z;
  duration_ms : Z;
  peak_bps : Q;
  e_min_venue : string;
  e_max_venue : string;
  n_points : option Z
}.

(** The variables of the detection loop (lines 76-79).  [start], [peak] and
    [peak_v] start as [None]. *)
Record ext_state : Set := ExtState {
  events : list event;
  in_event : bool;
  start : option Z;
  peak : option Q;
  peak_v : option (string * string)
}.

Definition init_state : ext_state :=
  {| events := []; in_event := false; start := None; peak := None;
     peak_v := None |}.

(** The [dict(...)] appended at lines 100-110 and 118-128.  Reading
    [peak_v[0]] of a [None] raises [TypeError]; [peak] and [peak_v] are
    always assigned together, so a [None] peak is the same case. *)
Definition make_event (st : ext_state) (s e : Z) : result event :=
  match peak st, peak_v st with
  | Some pk, Some pv =>
      Ok {| start_ms := s; end_ms := e; duration_ms := e - s; peak_bps := pk;
            e_min_venue := fst pv; e_max_venue := snd pv; n_points := None |}
  | _, _ => Raise TypeError
  end.

Section Extractor.

Variable threshold_bps : Q.
Variable persistence_ms : Z.

(** Body of the loop, lines 81-111. *)
Definition step (st : ext_state) (row : metric_row) : result ext_state :=
  let ts := ts_ms row in
  let bps := spread_bps row in
  if Qgeb bps threshold_bps then
    if negb (in_event st) then
      Ok {| events := events st; in_event := true; start := Some ts;
            peak := Some bps;
            peak_v := Some (min_venue row, max_venue row) |}
    else
      match peak st with
      | None => Raise TypeError
      | Some pk =>
          if Qgtb bps pk then
            Ok {| events := events st; in_event := in_event st;
                  start := start st; peak := Some bps;
                  peak_v := Some (min_venue row, max_venue row) |}
          else Ok st
      end
  else
    if in_event st then
      match start st with
      | None => Raise TypeError
      | Some s =>
          let e := ts in
          let dur := e - s in
          if dur >=? persistence_ms then
            ev <- make_event st s e ;;
            Ok {| events := events st ++ [ev]; in_event := false;
                  start := start st; peak := peak st; peak_v := peak_v st |}
          else
            Ok {| events := events st; in_event := false;
                  start := start st; peak := peak st; peak_v := peak_v st |}
      end
    else Ok st.

(** The loop of line 81 over the rows of [metrics]. *)
Fixpoint scan (st : ext_state) (rows : list metric_row) : result ext_state :=
  match rows with
  | [] => Ok st
  | row :: rest => st' <- step st row ;; scan st' rest
  end.

(** [metrics["ts_ms"].iloc[-1]] (line 115). *)
Fixpoint last_ts (rows : list metric_row) : result Z :=
  match rows with
  | [] => Raise IndexError
  | [row] => Ok (ts_ms row)
  | _ :: rest => last_ts rest
  end.

(** Closing of the trailing event, lines 113-128. *)
Definition close_trailing (rows : list metric_row) (st : ext_state)
  : result (list event) :=
  if in_event st then
    e <- last_ts rows ;;
    match start st with
    | None => Raise TypeError
    | Some s =>
        let dur := e - s in
        if dur >=? persistence_ms then
          ev <- make_event st s e ;; Ok (events st ++ [ev])
        else Ok (events st)
    end
  else Ok (events st).

(** Lines 71-130: the events computed from the metric rows.  With no metric
    row the script returns at line 73 and no event exists. *)
Definition detect (rows : list metric_row) : result (list event) :=
  match rows with
  | [] => Ok []
  | _ => st <- scan init_state rows ;; close_trailing rows st
  end.

End Extractor.

(** ** As-of merge and spread metric, lines 52-64 *)

(** [last_mid], a dict from venue to its latest mid, in insertion order. *)
Definition venue_state : Set := list (string * Q).

(** [last_mid[venue] = float(mid)]: an existing key keeps its place, a new
    key goes last. *)
Fixpoint dict_set (d : venue_state) (k : string) (v : Q) : venue_state :=
  match d with
  | [] => [(k, v)]
  | (k', v') :: d' =>
      if String.eqb k' k then (k', v) :: d' else (k', v') :: dict_set d' k v
  end.

Fixpoint dict_get (d : venue_state) (k : string) : option Q :=
  match d with
  | [] => None
  | (k', v') :: d' => if String.eqb k' k then Some v' else dict_get d' k
  end.

(** [min(items, key=lambda x: x[1])]: the first item with the least value. *)
Fixpoint min_from (best : string * Q) (items : list (string * Q))
  : string * Q :=
  match items with
  | [] => best
  | x :: rest => min_from (if Qgtb (snd best) (snd x) then x else best) rest
  end.

(** [max(items, key=lambda x: x[1])]: the first item with the greatest
    value. *)
Fixpoint max_from (best : string * Q) (items : list (string * Q))
  : string * Q :=
  match items with
  | [] => best
  | x :: rest => max_from (if Qgtb (snd x) (snd best) then x else best) rest
  end.

Definition py_min (items : list (string * Q)) : result (string * Q) :=
  match items with
  | [] => Raise ValueError
  | x :: rest => Ok (min_from x rest)
  end.

Definition py_max (items : list (string * Q)) : result (string * Q) :=
  match items with
  | [] => Raise ValueError
  | x :: rest => Ok (max_from x rest)
  end.

(** The variables of the merge loop (lines 53-54). *)
Record merge_state : Set := MergeState {
  last_mid : venue_state;
  metric_rows : list metric_row
}.

Definition merge_init : merge_state :=
  {| last_mid := []; metric_rows := [] |}.

(** Body of the loop, lines 57-64. *)
Definition merge_step (st : merge_state) (tk : tick) : result merge_state :=
  let lm := dict_set (last_mid st) (venue tk) (mid tk) in
  if (2 <=? List.length lm)%nat then
    let items := lm in
    mn <- py_min items ;;
    mx <- py_max items ;;
    let avg_mid := ((snd mn + snd mx) / 2)%Q in
    q <- float_div (snd mx - snd mn) avg_mid ;;
    let bps := (q * 10000)%Q in
    Ok {| last_mid := lm;
          metric_rows := metric_rows st ++
            [ {| ts_ms := tick_ts_ms tk; min_venue := fst mn;
                 max_venue := fst mx; min_mid := snd mn; max_mid := snd mx;
                 spread_bps := bps |} ] |}
  else Ok {| last_mid := lm; metric_rows := metric_rows st |}.

(** The loop of line 56 over the ticks. *)
Fixpoint merge_from (st : merge_state) (ticks : list tick)
  : result merge_state :=
  match ticks with
  | [] => Ok st
  | tk :: rest => st' <- merge_step st tk ;; merge_from st' rest
  end.

Definition build_metrics (ticks : list tick) : result merge_state :=
  merge_from merge_init ticks.

(** Lines 52-130: from the ticks read at line 45 to the events. *)
Definition main (threshold_bps : Q) (persistence_ms : Z) (ticks : list tick)
  : result (list event) :=
  st <- build_metrics ticks ;;
  detect threshold_bps persistence_ms (metric_rows st).

(** ** Vocabulary of the statements about this script *)

(** A sample at or above the threshold. *)
Definition above (threshold_bps : Q) (row : metric_row) : bool :=
  Qgeb (spread_bps row) threshold_bps.

(** The extractor is outside after [pre]: there is no sample yet, or the last
    one is below the threshold. *)
Definition outside_after (threshold_bps : Q) (pre : list metric_row) : bool :=
  match rev pre with
  | [] => true
  | b :: _ => negb (above threshold_bps b)
  end.

(** The first greatest spread of a run of samples and its venue pair, from
    the pair [(pk, pv)] of the first sample. *)
Fixpoint peak_of (pk : Q) (pv : string * string) (run : list metric_row)
  : Q * (string * string) :=
  match run with
  | [] => (pk, pv)
  | row :: rest =>
      if Qgtb (spread_bps row) pk
      then peak_of (spread_bps row) (min_venue row, max_venue row) rest
      else peak_of pk pv rest
  end.

(** The event of an interval that entered on [r], stayed inside over [run]
    and was closed at time [e]. *)
Definition interval_event (r : metric_row) (run : list metric_row) (e : Z)
  : event :=
  let pp := peak_of (spread_bps r) (min_venue r, max_venue r) run in
  {| start_ms := ts_ms r; end_ms := e; duration_ms := e - ts_ms r;
     peak_bps := fst pp; e_min_venue := fst (snd pp);
     e_max_venue := snd (snd pp); n_points := None |}.

(** The state inside an interval. *)
Definition inside (evs : list event) (s : Z) (pk : Q) (pv : string * string)
  : ext_state :=
  {| events := evs; in_event := true; start := Some s; peak := Some pk;
     peak_v := Some pv |}.

(** While inside, the three side variables hold values. *)
Definition armed (st : ext_state) : Prop :=
  in_event st = true ->
  exists s pk pv, start st = Some s /\ peak st = Some pk /\ peak_v st = Some pv.

(** An event whose duration is the length of its interval and passes the
    persistence filter. *)
Definition passes (persistence_ms : Z) (e : event) : Prop :=
  duration_ms e = end_ms e - start_ms e /\ persistence_ms <= duration_ms e.

(** [a] ends no later than [b] starts. *)
Definition before (a b : event) : Prop := end_ms a <= start_ms b.

(** The events lie on the time line up to the clock [c]: each ends no earlier
    than it starts and by [c], they follow one another, and an open interval
    starts by [c] and after every event. *)
Definition timeline (c : Z) (st : ext_state) : Prop :=
  Forall (fun e => start_ms e <= end_ms e /\ end_ms e <= c) (events st) /\
  Sorted before (events st) /\
  (in_event st = true ->
   exists s, start st = Some s /\ s <= c /\
             Forall (fun e => end_ms e <= s) (events st)).

(** An event read off the samples [seen]: its peak reaches the threshold and
    is the spread of a sample at or above the threshold whose venue pair it
    records, it starts at the timestamp of a sample at or above the
    threshold and ends at the timestamp of a sample. *)
Definition grounded (threshold_bps : Q) (seen : list metric_row) (e : event)
  : Prop :=
  (threshold_bps <= peak_bps e)%Q /\
  (exists r, In r seen /\ above threshold_bps r = true /\
             ts_ms r = start_ms e) /\
  (exists r, In r seen /\ ts_ms r = end_ms e) /\
  (exists r, In r seen /\ above threshold_bps r = true /\
             spread_bps r = peak_bps e /\
             min_venue r = e_min_venue e /\ max_venue r = e_max_venue e).

(** The open interval of a state, read off the samples [seen]. *)
Definition grounded_open (threshold_bps : Q) (seen : list metric_row)
    (st : ext_state) : Prop :=
  in_event st = true ->
  exists s pk pv,
    start st = Some s /\ peak st = Some pk /\ peak_v st = Some pv /\
    (exists r, In r seen /\ above threshold_bps r = true /\ ts_ms r = s) /\
    (exists r, In r seen /\ above threshold_bps r = true /\
               spread_bps r = pk /\ (min_venue r, max_venue r) = pv).

(** The mid of the last tick of [ticks] with venue [v]. *)
Fixpoint latest_mid (v : string) (ticks : list tick) : option Q :=
  match ticks with
  | [] => None
  | tk :: rest =>
      match latest_mid v rest with
      | Some m => Some m
      | None => if String.eqb (venue tk) v then Some (mid tk) else None
      end
  end.

End DetectEvents.

(** * scripts/backtest.py *)

Module Backtest.

(** A value of the parsed YAML configuration, or a cell of a frame read from
    CSV. *)
#[local] Unset Elimination Schemes.
Inductive pyval : Type :=
| PNone
| PBool (b : bool)
| PInt (z : Z)
| PFloat (q : Q)
| PStr (s : string)
| PList (l : list pyval)
| PDict (d : list (string * pyval)).
#[local] Set Elimination Schemes.

(** Python truth value, used by [x or default]. *)
Definition truthy (v : pyval) : bool :=
  match v with
  | PNone => false
  | PBool b => b
  | PInt z => negb (z =? 0)
  | PFloat q => negb (Qeq_bool q 0)
  | PStr s => negb (String.eqb s EmptyString)
  | PList l => match l with [] => false | _ => true end
  | PDict d => match d with [] => false | _ => true end
  end.

(** [d.get(k, default)]. *)
Fixpoint get (d : list (string * pyval)) (k : string) (default : pyval)
  : pyval :=
  match d with
  | [] => default
  | (k', v) :: d' => if String.eqb k' k then v else get d' k default
  end.

(** One row of the events frame (lines 138-141 and 152).  The four required
    columns are fields of the row, so the check of lines 131-134 is decided by
    the type; [spread_cell] is read only when the frame has the column. *)
Record event_row : Type := EventRow {
  start_ms : Z;
  end_ms : Z;
  min_venue : string;
  max_venue : string;
  spread_cell : pyval
}.

Record events_frame : Type := EventsFrame {
  has_spread_bps : bool;
  rows : list event_row
}.

(** One entry of [trades] (lines 180-198). *)
Record trade : Set := Trade {
  t_start_ms : Z;
  t_end_ms : Z;
  duration_ms : Z;
  entry_ts : Z;
  exit_ts : Z;
  long_venue : string;
  short_venue : string;
  long_entry_mid : option Q;
  short_entry_mid : option Q;
  long_exit_mid : option Q;
  short_exit_mid : option Q;
  spread_bps : Q;
  pnl_bps : Q;
  total_cost_bps : Q;
  pnl_net_bps : Q
}.

(** [idxmin] of the absolute time distances: the first row at the least
    distance. *)
Fixpoint nearest_from (best : tick) (ts : Z) (sub : list tick) : tick :=
  match sub with
  | [] => best
  | x :: rest =>
      nearest_from
        (if Z.abs (tick_ts_ms x - ts) <? Z.abs (tick_ts_ms best - ts)
         then x else best) ts rest
  end.

(** Lines 49-64.  The rows are typed, so [float(val)] succeeds. *)
Definition nearest_mid (ticks : list tick) (ts : Z) (v : string) : option Q :=
  let sub := filter (fun t => String.eqb (venue t) v) ticks in
  match sub with
  | [] => None
  | x :: rest => Some (mid (nearest_from x ts rest))
  end.

Section Builtins.

(** Python's [float(s)] and [int(s)] on a [str]: [None] stands for the
    [ValueError] of a string that does not parse. *)
Variable float_of_str : string -> option Q.
Variable int_of_str : string -> option Z.

(** [float(v)]. *)
Definition py_float (v : pyval) : result Q :=
  match v with
  | PNone => Raise TypeError
  | PBool b => Ok (if b then 1 else 0)%Q
  | PInt z => Ok (inject_Z z)
  | PFloat q => Ok q
  | PStr s =>
      match float_of_str s with Some q => Ok q | None => Raise ValueError end
  | PList _ => Raise TypeError
  | PDict _ => Raise TypeError
  end.

(** [int(v)]; a float is truncated toward zero. *)
Definition py_int (v : pyval) : result Z :=
  match v with
  | PNone => Raise TypeError
  | PBool b => Ok (if b then 1 else 0)
  | PInt z => Ok z
  | PFloat q => Ok (Z.quot (Qnum q) (Zpos (Qden q)))
  | PStr s =>
      match int_of_str s with Some z => Ok z | None => Raise ValueError end
  | PList _ => Raise TypeError
  | PDict _ => Raise TypeError
  end.

(** [sum(float(v) for v in values)], from the accumulator [acc]. *)
Fixpoint sum_floats (acc : Q) (values : list pyval) : result Q :=
  match values with
  | [] => Ok acc
  | v :: rest => x <- py_float v ;; sum_floats (acc + x)%Q rest
  end.

(** Lines 39-46. *)
Definition total_cost_bps_from_cfg (cfg : list (string * pyval)) : result Q :=
  let costs := get cfg "costs_bps" (PDict []) in
  let costs := if truthy costs then costs else PDict [] in
  match costs with
  | PDict d =>
      per_action_bps <- sum_floats 0 (map snd d) ;;
      Ok (4 * per_action_bps)%Q
  | _ => Ok 0%Q
  end.

(** Lines 123-127. *)
Definition latency_from_cfg (cfg : list (string * pyval)) : Z :=
  let latency_ms := get cfg "latency_ms" (PInt 0) in
  let latency_ms := if truthy latency_ms then latency_ms else PInt 0 in
  match py_int latency_ms with
  | Ok z => z
  | Raise _ => 0
  end.

(** Lines 149-154: the spread carried by the events frame, when it has the
    column and the cell converts to a float. *)
Definition carried_spread (has_spread : bool) (r : event_row) : option Q :=
  if has_spread then
    match py_float (spread_cell r) with
    | Ok q => Some q
    | Raise _ => None
    end
  else None.

(** Body of the loop, lines 138-198: [None] is the [continue] of line 173. *)
Definition trade_of (ticks : list tick) (total_cost : Q) (latency_ms : Z)
    (has_spread : bool) (r : event_row) : result (option trade) :=
  let long_v := min_venue r in
  let short_v := max_venue r in
  let entry := start_ms r + latency_ms in
  let exit := end_ms r + latency_ms in
  let carried := carried_spread has_spread r in
  let long_entry := nearest_mid ticks entry long_v in
  let short_entry := nearest_mid ticks entry short_v in
  let long_exit := nearest_mid ticks exit long_v in
  let short_exit := nearest_mid ticks exit short_v in
  spread <-
    match carried, long_entry, short_entry with
    | None, Some le, Some se =>
        let mid_avg := ((le + se) / 2)%Q in
        if Qgtb mid_avg 0 then
          q <- float_div (se - le) mid_avg ;; Ok (Some (q * 10000)%Q)
        else Ok None
    | _, _, _ => Ok carried
    end ;;
  match spread with
  | None => Ok None
  | Some sp =>
      let pnl := sp in
      let pnl_net := (pnl - total_cost)%Q in
      Ok (Some {| t_start_ms := start_ms r; t_end_ms := end_ms r;
                  duration_ms := end_ms r - start_ms r;
                  entry_ts := entry; exit_ts := exit;
                  long_venue := long_v; short_venue := short_v;
                  long_entry_mid := long_entry;
                  short_entry_mid := short_entry;
                  long_exit_mid := long_exit; short_exit_mid := short_exit;
                  spread_bps := sp; pnl_bps := pnl;
                  total_cost_bps := total_cost; pnl_net_bps := pnl_net |})
  end.

(** The loop of line 137, from the trades appended so far. *)
Fixpoint make_trades (ticks : list tick) (total_cost : Q) (latency_ms : Z)
    (has_spread : bool) (trades : list trade) (rs : list event_row)
  : result (list trade) :=
  match rs with
  | [] => Ok trades
  | r :: rest =>
      o <- trade_of ticks total_cost latency_ms has_spread r ;;
      make_trades ticks total_cost latency_ms has_spread
        (match o with Some t => trades ++ [t] | None => trades end) rest
  end.

(** Lines 84-200: the trade rows of a run.  The early returns of lines 87,
    93, 97 and 112 write no trade. *)
Definition main (cfg : list (string * pyval)) (events : events_frame)
    (ticks : list tick) : result (list trade) :=
  match rows events, ticks with
  | [], _ => Ok []
  | _, [] => Ok []
  | _, _ =>
      total_cost <- total_cost_bps_from_cfg cfg ;;
      let latency_ms := latency_from_cfg cfg in
      make_trades ticks total_cost latency_ms (has_spread_bps events) []
        (rows events)
  end.

End Builtins.

(** ** Vocabulary of the statements about this script *)

(** The tick store has at least one tick of venue [v]. *)
Definition covered (ticks : list tick) (v : string) : bool :=
  existsb (fun t => String.eqb (venue t) v) ticks.




End Backtest.

(** * Configuration and the query of the ticks *)

Module Config.

Import Backtest.



(** [SELECT MAX(ts_ms) FROM ticks] (detect_events.py line 38) over a table
    with the row [tk] and the rows [rest]. *)
Definition max_ts (tk : tick) (rest : list tick) : Z :=
  fold_left (fun m t => Z.max m (tick_ts_ms t)) rest (tick_ts_ms tk).

(** detect_events.py lines 42-49: the rows with [ts_ms >= start_ts] of a
    table given in the order of [ORDER BY ts_ms ASC].  On an empty table the
    script stops at line 40 and selects nothing. *)
Definition lookback_ticks (lookback_min : Z) (table : list tick) : list tick :=
  match table with
  | [] => []
  | tk :: rest =>
      let lb_ms := lookback_min * 60 * 1000 in
      let start_ts := max_ts tk rest - lb_ms in
      filter (fun t => start_ts <=? tick_ts_ms t) table
  end.


End Config.

(** * scripts/collect_ticks.py *)

Module CollectTicks.

(** Line 10. *)
Definition VENUES_SUPPORTED : list string :=
  ["COINBASE"%string; "KRAKEN"%string; "BITSTAMP"%string].

(** The three fetch functions, lines 40-70. *)
Inductive fetcher : Set :=
| fetch_coinbase
| fetch_bitstamp
| fetch_kraken.

(** Lines 73-77. *)
Definition FETCHERS : list (string * fetcher) :=
  [("COINBASE"%string, fetch_coinbase); ("KRAKEN"%string, fetch_kraken);
   ("BITSTAMP"%string, fetch_bitstamp)].

Fixpoint lookup (d : list (string * fetcher)) (k : string) : option fetcher :=
  match d with
  | [] => None
  | (k', f) :: d' => if String.eqb k' k then Some f else lookup d' k
  end.

(** A row of the [ticks] table, lines 23-30. *)
Record tick_row : Set := TickRow {
  ts_ms : Z;
  row_venue : string;
  bid : Q;
  ask : Q;
  row_mid : Q
}.

Section Upper.

(** Python's [str.upper]. *)
Variable upper : string -> string.

(** Lines 96-98: the configured venues that are supported, in upper case. *)
Definition select_venues (venues_cfg : list string) : result (list string) :=
  let venues :=
    map upper
      (filter (fun v => existsb (String.eqb (upper v)) VENUES_SUPPORTED)
         venues_cfg) in
  match venues with
  | [] => Raise ValueError
  | _ => Ok venues
  end.

End Upper.

(** [INSERT OR REPLACE] under the primary key [(ts_ms, venue)], line 122. *)
Definition same_key (a b : tick_row) : bool :=
  (ts_ms a =? ts_ms b) && String.eqb (row_venue a) (row_venue b).

Definition insert_or_replace (table : list tick_row) (row : tick_row)
  : list tick_row :=
  filter (fun r => negb (same_key r row)) table ++ [row].

(** Lines 118-127 for one venue: [response] is what the venue's fetcher
    returned or raised; an exception is printed and the venue skipped.  The
    state is the table and the counter [rows]. *)
Definition poll_venue (ts : Z) (st : list tick_row * Z)
    (call : string * result (Q * Q)) : list tick_row * Z :=
  let '(table, n) := st in
  let '(venue, response) := call in
  match lookup FETCHERS venue, response with
  | Some _, Ok (b, a) =>
      let m := ((b + a) / 2)%Q in
      (insert_or_replace table
         {| ts_ms := ts; row_venue := venue; bid := b; ask := a;
            row_mid := m |},
       n + 1)
  | _, _ => (table, n)
  end.

(** Lines 116-127: one round of the loop at time [ts], over the venues with
    the responses of their fetchers. *)
Definition poll_round (ts : Z) (st : list tick_row * Z)
    (calls : list (string * result (Q * Q))) : list tick_row * Z :=
  fold_left (poll_venue ts) calls st.

End CollectTicks.

(** * Facts about the float comparisons *)

Lemma Qgeb_true (x y : Q) : Qgeb x y = true <-> (y <= x)%Q.
Proof. unfold Qgeb. apply Qle_bool_iff. Qed.

Lemma Qgeb_false (x y : Q) : Qgeb x y = false <-> (x < y)%Q.
Proof.
  unfold Qgeb. split; intro H.
  - apply Qnot_le_lt. intro L. apply Qle_bool_iff in L. congruence.
  - destruct (Qle_bool y x) eqn:E; [|reflexivity].
    apply Qle_bool_iff in E. exfalso. exact (Qlt_not_le _ _ H E).
Qed.

Lemma Qgtb_true (x y : Q) : Qgtb x y = true <-> (y < x)%Q.
Proof.
  unfold Qgtb. rewrite negb_true_iff. exact (Qgeb_false y x).
Qed.

Lemma Qgtb_false (x y : Q) : Qgtb x y = false <-> (x <= y)%Q.
Proof.
  unfold Qgtb. rewrite negb_false_iff. apply Qle_bool_iff.
Qed.

(** * Facts about scripts/detect_events.py *)

Module DetectEventsFacts.

Import DetectEvents.

Section Extractor.

Variable th : Q.
Variable p : Z.

(** ** One step of the loop, case by case *)

Lemma step_enter st r :
  in_event st = false -> above th r = true ->
  step th p st r =
  Ok (inside (events st) (ts_ms r) (spread_bps r) (min_venue r, max_venue r)).
Proof.
  unfold step, above. intros Hout Hab. rewrite Hab, Hout. reflexivity.
Qed.

Lemma step_stay evs s pk pv r :
  above th r = true ->
  step th p (inside evs s pk pv) r =
  Ok (if Qgtb (spread_bps r) pk
      then inside evs s (spread_bps r) (min_venue r, max_venue r)
      else inside evs s pk pv).
Proof.
  unfold step, above. intros Hab. rewrite Hab. simpl.
  destruct (Qgtb (spread_bps r) pk); reflexivity.
Qed.

Lemma step_exit evs s pk pv b :
  above th b = false ->
  step th p (inside evs s pk pv) b =
  Ok {| events :=
          evs ++
          (if ts_ms b - s >=? p
           then [ {| start_ms := s; end_ms := ts_ms b;
                     duration_ms := ts_ms b - s; peak_bps := pk;
                     e_min_venue := fst pv; e_max_venue := snd pv;
                     n_points := None |} ]
           else []);
        in_event := false; start := Some s; peak := Some pk;
        peak_v := Some pv |}.
Proof.
  unfold step, above. intros Hab. rewrite Hab. simpl.
  destruct (ts_ms b - s >=? p); simpl; [reflexivity|].
  rewrite app_nil_r. reflexivity.
Qed.

Lemma step_idle st b :
  in_event st = false -> above th b = false -> step th p st b = Ok st.
Proof.
  unfold step, above. intros Hout Hab. rewrite Hab, Hout. reflexivity.
Qed.

Lemma armed_inside st :
  armed st -> in_event st = true ->
  exists s pk pv, st = inside (events st) s pk pv.
Proof.
  intros Ha Hin. destruct (Ha Hin) as (s & pk & pv & Hs & Hp & Hv).
  exists s, pk, pv. destruct st; simpl in *. subst. reflexivity.
Qed.

Lemma armed_init : armed init_state.
Proof. intro H. discriminate H. Qed.

(** A step from an armed state never raises, leaves an armed state, and is
    inside afterwards exactly when the sample is at or above the threshold. *)
Lemma step_total st r :
  armed st ->
  exists st', step th p st r = Ok st' /\ armed st' /\
              in_event st' = above th r.
Proof.
  intros Ha.
  destruct (in_event st) eqn:Hin; destruct (above th r) eqn:Hab.
  - destruct (armed_inside st Ha Hin) as (s & pk & pv & ->).
    rewrite step_stay by assumption.
    destruct (Qgtb (spread_bps r) pk); eexists; (split; [reflexivity|]);
      (split; [|reflexivity]); intros _; do 3 eexists; repeat split.
  - destruct (armed_inside st Ha Hin) as (s & pk & pv & ->).
    rewrite step_exit by assumption.
    eexists; split; [reflexivity|]. split; [|reflexivity].
    intro H. discriminate H.
  - rewrite step_enter by assumption.
    eexists; split; [reflexivity|]. split; [|reflexivity].
    intros _; do 3 eexists; repeat split.
  - rewrite step_idle by assumption.
    eexists; split; [reflexivity|]. split; [|assumption].
    intro H. congruence.
Qed.

(** ** The loop *)

Lemma scan_app st a b :
  scan th p st (a ++ b) = (st' <- scan th p st a ;; scan th p st' b).
Proof.
  revert st. induction a as [|r a IH]; intro st; simpl; [reflexivity|].
  destruct (step th p st r) as [st1|e]; simpl; [apply IH|reflexivity].
Qed.

Lemma scan_total rows : forall st,
  armed st -> exists st', scan th p st rows = Ok st' /\ armed st'.
Proof.
  induction rows as [|r rows IH]; intros st Ha; simpl.
  - exists st. split; [reflexivity|assumption].
  - destruct (step_total st r Ha) as (st1 & -> & Ha1 & _). simpl.
    apply IH. assumption.
Qed.

Lemma scan_armed rows st st' :
  armed st -> scan th p st rows = Ok st' -> armed st'.
Proof.
  intros Ha H. destruct (scan_total rows st Ha) as (st2 & H2 & Ha2).
  rewrite H in H2. injection H2 as ->. assumption.
Qed.

(** Over a run of samples at or above the threshold the extractor stays
    inside, keeps the start and the events, and follows the peak. *)
Lemma scan_inside_run run : forall evs s pk pv,
  forallb (above th) run = true ->
  scan th p (inside evs s pk pv) run =
  Ok (inside evs s (fst (peak_of pk pv run)) (snd (peak_of pk pv run))).
Proof.
  induction run as [|r run IH]; intros evs s pk pv Hall; simpl.
  - reflexivity.
  - simpl in Hall. apply andb_true_iff in Hall as [Hr Hall].
    rewrite step_stay by assumption.
    destruct (Qgtb (spread_bps r) pk); simpl; apply IH; assumption.
Qed.

Lemma scan_run st r run :
  in_event st = false -> forallb (above th) (r :: run) = true ->
  scan th p st (r :: run) =
  Ok (let pp := peak_of (spread_bps r) (min_venue r, max_venue r) run in
      inside (events st) (ts_ms r) (fst pp) (snd pp)).
Proof.
  intros Hout Hall. simpl in Hall. apply andb_true_iff in Hall as [Hr Hall].
  simpl. rewrite step_enter by assumption. simpl.
  apply scan_inside_run. assumption.
Qed.

(** After a sample below the threshold the extractor is outside. *)
Lemma scan_outside pre : forall st,
  armed st -> in_event st = false -> outside_after th pre = true ->
  exists st', scan th p st pre = Ok st' /\ in_event st' = false.
Proof.
  intros st Ha Hout Hpre. unfold outside_after in Hpre.
  destruct (rev pre) as [|b l] eqn:E.
  - apply (f_equal (@rev _)) in E. rewrite rev_involutive in E. subst pre.
    exists st. split; [reflexivity|assumption].
  - apply (f_equal (@rev _)) in E. rewrite rev_involutive in E. simpl in E.
    subst pre. rewrite scan_app.
    destruct (scan_total (rev l) st Ha) as (st1 & -> & Ha1). simpl.
    destruct (step_total st1 b Ha1) as (st2 & -> & _ & Hin). simpl.
    exists st2. split; [reflexivity|].
    rewrite Hin. apply negb_true_iff. assumption.
Qed.

(** ** Intervals *)

Lemma last_cons_default (l : list metric_row) : forall a d d',
  last (a :: l) d = last (a :: l) d'.
Proof.
  induction l as [|b l IH]; intros a d d'; [reflexivity|].
  change (last (b :: l) d = last (b :: l) d'). apply IH.
Qed.

Lemma last_ts_cons run : forall r,
  last_ts (r :: run) = Ok (ts_ms (last run r)).
Proof.
  induction run as [|a run IH]; intro r; [reflexivity|].
  change (last_ts (r :: a :: run)) with (last_ts (a :: run)).
  rewrite IH. f_equal. f_equal.
  change (last run a = last (a :: run) r).
  destruct run as [|b run]; [reflexivity|].
  change (last (b :: run) a = last (b :: run) r).
  apply last_cons_default.
Qed.

Lemma last_ts_app pre r run :
  last_ts (pre ++ r :: run) = Ok (ts_ms (last run r)).
Proof.
  induction pre as [|a pre IH]; simpl app; [apply last_ts_cons|].
  destruct (pre ++ r :: run) eqn:E; [destruct pre; discriminate E|].
  exact IH.
Qed.

Lemma detect_cons r rows :
  detect th p (r :: rows) =
  (st <- scan th p init_state (r :: rows) ;;
   close_trailing p (r :: rows) st).
Proof. reflexivity. Qed.

(** When the extractor is outside at the end, nothing is open. *)
Lemma detect_outside pre :
  outside_after th pre = true ->
  exists st0, scan th p init_state pre = Ok st0 /\ in_event st0 = false /\
              detect th p pre = Ok (events st0).
Proof.
  intro Hpre.
  destruct (scan_outside pre init_state armed_init eq_refl Hpre)
    as (st0 & Hs & Hout).
  exists st0. split; [assumption|]. split; [assumption|].
  destruct pre as [|a pre].
  - simpl in Hs. injection Hs as <-. reflexivity.
  - rewrite detect_cons, Hs. simpl. unfold close_trailing.
    rewrite Hout. reflexivity.
Qed.

(** An interval closed in mid-stream: entered on [r], kept over [run],
    closed by the first sample [b] below the threshold. *)
Lemma interval_closed pre r run b :
  outside_after th pre = true ->
  forallb (above th) (r :: run) = true ->
  above th b = false ->
  exists st0 st1,
    scan th p init_state pre = Ok st0 /\
    scan th p init_state (pre ++ r :: run ++ [b]) = Ok st1 /\
    in_event st1 = false /\
    events st1 =
    events st0 ++
    (if ts_ms b - ts_ms r >=? p then [interval_event r run (ts_ms b)]
     else []).
Proof.
  intros Hpre Hrun Hb.
  destruct (scan_outside pre init_state armed_init eq_refl Hpre)
    as (st0 & Hs & Hout).
  exists st0.
  change (r :: run ++ [b]) with ((r :: run) ++ [b]).
  rewrite scan_app, Hs. cbn [bind].
  rewrite scan_app, (scan_run st0 r run Hout Hrun). cbv zeta. cbn [bind scan].
  rewrite step_exit by assumption. cbn [bind].
  eexists. split; [reflexivity|]. split; [reflexivity|].
  split; reflexivity.
Qed.

(** An interval still open at the end of the stream. *)
Lemma interval_flushed pre r run :
  outside_after th pre = true ->
  forallb (above th) (r :: run) = true ->
  exists st0,
    scan th p init_state pre = Ok st0 /\
    detect th p pre = Ok (events st0) /\
    detect th p (pre ++ r :: run) =
    Ok (events st0 ++
        (if ts_ms (last run r) - ts_ms r >=? p
         then [interval_event r run (ts_ms (last run r))]
         else [])).
Proof.
  intros Hpre Hrun.
  destruct (detect_outside pre Hpre) as (st0 & Hs & Hout & Hd).
  exists st0. split; [assumption|]. split; [assumption|].
  assert (Hne : exists a l, pre ++ r :: run = a :: l).
  { destruct pre; simpl; eauto. }
  destruct Hne as (a & l & E).
  rewrite E, detect_cons, <- E.
  rewrite scan_app, Hs. cbn [bind].
  rewrite (scan_run st0 r run Hout Hrun). cbv zeta. cbn [bind].
  unfold close_trailing. simpl in_event. cbv iota.
  rewrite last_ts_app. simpl.
  destruct (ts_ms (last run r) - ts_ms r >=? p); simpl.
  - reflexivity.
  - rewrite app_nil_r. reflexivity.
Qed.

(** ** Every emitted event passed the persistence filter *)

Lemma step_durations st r st' :
  armed st -> step th p st r = Ok st' ->
  Forall (passes p) (events st) ->
  Forall (passes p) (events st').
Proof.
  intros Ha Hstep Hall.
  destruct (in_event st) eqn:Hin; destruct (above th r) eqn:Hab.
  - destruct (armed_inside st Ha Hin) as (s & pk & pv & E).
    rewrite E, step_stay in Hstep by assumption.
    injection Hstep as <-. destruct (Qgtb (spread_bps r) pk); exact Hall.
  - destruct (armed_inside st Ha Hin) as (s & pk & pv & E).
    rewrite E, step_exit in Hstep by assumption.
    injection Hstep as <-. simpl. apply Forall_app. split; [exact Hall|].
    destruct (ts_ms r - s >=? p) eqn:G; constructor; [|constructor].
    split; [reflexivity|]. simpl. apply Z.geb_le in G. exact G.
  - rewrite step_enter in Hstep by assumption.
    injection Hstep as <-. exact Hall.
  - rewrite step_idle in Hstep by assumption.
    injection Hstep as <-. exact Hall.
Qed.

Lemma scan_durations rows : forall st st',
  armed st -> scan th p st rows = Ok st' ->
  Forall (passes p) (events st) ->
  Forall (passes p) (events st').
Proof.
  induction rows as [|r rows IH]; intros st st' Ha Hs Hall; simpl in Hs.
  - injection Hs as <-. exact Hall.
  - destruct (step_total st r Ha) as (st1 & Hstep & Ha1 & _).
    rewrite Hstep in Hs. simpl in Hs.
    apply (IH st1 st' Ha1 Hs).
    exact (step_durations st r st1 Ha Hstep Hall).
Qed.

(** The closing of the trailing event never raises from an armed state. *)
Lemma close_trailing_total a rows st :
  armed st ->
  exists evs, close_trailing p (a :: rows) st = Ok evs /\
    (Forall (passes p) (events st) ->
     Forall (passes p) evs).
Proof.
  intro Ha. unfold close_trailing.
  destruct (in_event st) eqn:Hin.
  - destruct (armed_inside st Ha Hin) as (s & pk & pv & E).
    rewrite last_ts_cons. simpl bind. rewrite E. simpl.
    destruct (ts_ms (last rows a) - s >=? p) eqn:G; simpl.
    + eexists. split; [reflexivity|]. intro Hall.
      apply Forall_app. split; [exact Hall|].
      constructor; [|constructor]. split; [reflexivity|].
      simpl. apply Z.geb_le in G. exact G.
    + eexists. split; [reflexivity|]. intro Hall. exact Hall.
  - eexists. split; [reflexivity|]. intro Hall. exact Hall.
Qed.

Lemma detect_total rows :
  exists evs, detect th p rows = Ok evs /\
              Forall (passes p) evs.
Proof.
  destruct rows as [|a rows].
  - exists []. split; [reflexivity|constructor].
  - rewrite detect_cons.
    destruct (scan_total (a :: rows) init_state armed_init)
      as (st & Hs & Ha).
    rewrite Hs. simpl bind.
    destruct (close_trailing_total a rows st Ha) as (evs & Hc & Hall).
    exists evs. split; [exact Hc|]. apply Hall.
    apply (scan_durations (a :: rows) init_state st armed_init Hs).
    constructor.
Qed.

End Extractor.

(** ** The end of the stream *)

Lemma flush_state th p front l st :
  scan th p init_state (front ++ [l]) = Ok st ->
  (in_event st = false -> detect th p (front ++ [l]) = Ok (events st)) /\
  (in_event st = true ->
   exists s pk pv,
     start st = Some s /\ peak st = Some pk /\ peak_v st = Some pv /\
     detect th p (front ++ [l]) =
     Ok (events st ++
         (if ts_ms l - s >=? p
          then [ {| start_ms := s; end_ms := ts_ms l;
                    duration_ms := ts_ms l - s; peak_bps := pk;
                    e_min_venue := fst pv; e_max_venue := snd pv;
                    n_points := None |} ]
          else []))).
Proof.
  intro Hs.
  assert (Ha : armed st) by exact (scan_armed th p _ _ _ armed_init Hs).
  assert (Hd : detect th p (front ++ [l]) =
               close_trailing p (front ++ [l]) st).
  { destruct (front ++ [l]) as [|a rows] eqn:E.
    - destruct front; discriminate E.
    - rewrite detect_cons, Hs. reflexivity. }
  rewrite Hd. unfold close_trailing. split; intro Hin; rewrite Hin.
  - reflexivity.
  - destruct (armed_inside st Ha Hin) as (s & pk & pv & E).
    exists s, pk, pv. rewrite E at 1 2 3. repeat (split; [reflexivity|]).
    rewrite last_ts_app. cbn [bind last]. rewrite E. cbn.
    destruct (ts_ms l - s >=? p); cbn; [reflexivity|].
    rewrite app_nil_r. reflexivity.
Qed.

(** C1.  At the end of the stream an interval that is still open is closed
    at the timestamp of the last sample and emitted exactly when its duration
    passes the persistence filter.  First on the final state of the loop:
    when the extractor is still inside, the result is the events so far plus
    the event from [start] to the last timestamp, kept when its duration
    reaches [persistence_ms]; when it is outside, nothing is added.  Then on
    the samples: a stream ending with a run at or above the threshold yields
    the events of what came before plus the flushed interval, which starts at
    the first sample of the run.  Last, the spreads [10,10,10] at
    [0,100,200] with threshold 5 and persistence 0 give exactly one event,
    from 0 to 200. *)
Theorem end_of_stream_flush :
  (forall th p front l st,
     scan th p init_state (front ++ [l]) = Ok st ->
     (in_event st = false -> detect th p (front ++ [l]) = Ok (events st)) /\
     (in_event st = true ->
      exists s pk pv,
        start st = Some s /\ peak st = Some pk /\ peak_v st = Some pv /\
        detect th p (front ++ [l]) =
        Ok (events st ++
            (if ts_ms l - s >=? p
             then [ {| start_ms := s; end_ms := ts_ms l;
                       duration_ms := ts_ms l - s; peak_bps := pk;
                       e_min_venue := fst pv; e_max_venue := snd pv;
                       n_points := None |} ]
             else [])))) /\
  (forall th p pre r run,
     outside_after th pre = true ->
     forallb (above th) (r :: run) = true ->
     exists evs0,
       detect th p pre = Ok evs0 /\
       detect th p (pre ++ r :: run) =
       Ok (evs0 ++
           (if ts_ms (last run r) - ts_ms r >=? p
            then [interval_event r run (ts_ms (last run r))]
            else []))) /\
  (forall v w m n,
     detect 5 0 [MetricRow 0 v w m n 10; MetricRow 100 v w m n 10;
                 MetricRow 200 v w m n 10] =
     Ok [ {| start_ms := 0; end_ms := 200; duration_ms := 200;
             peak_bps := 10; e_min_venue := v; e_max_venue := w;
             n_points := None |} ]).
Proof.
  split; [|split].
  - intros th p front l st Hs. exact (flush_state th p front l st Hs).
  - intros th p pre r run Hpre Hrun.
    destruct (interval_flushed th p pre r run Hpre Hrun)
      as (st0 & _ & Hd & Hflush).
    exists (events st0). split; assumption.
  - intros v w m n. reflexivity.
Qed.

Lemma end_of_stream_flush_witness :
  let r0 := MetricRow 0 "okx"%string "kraken"%string 100 101 3 in
  let r1 := MetricRow 100 "okx"%string "kraken"%string 100 101 10 in
  let r2 := MetricRow 200 "okx"%string "kraken"%string 100 101 12 in
  let ev := {| start_ms := 100; end_ms := 200; duration_ms := 100;
               peak_bps := 12; e_min_venue := "okx"%string;
               e_max_venue := "kraken"%string; n_points := None |} in
  (exists s pk pv,
     start (inside [] 100 12 ("okx"%string, "kraken"%string)) = Some s /\
     peak (inside [] 100 12 ("okx"%string, "kraken"%string)) = Some pk /\
     peak_v (inside [] 100 12 ("okx"%string, "kraken"%string)) = Some pv /\
     detect 5 50 ([r0; r1] ++ [r2]) =
     Ok ([] ++
         (if 200 - s >=? 50
          then [ {| start_ms := s; end_ms := 200; duration_ms := 200 - s;
                    peak_bps := pk; e_min_venue := fst pv;
                    e_max_venue := snd pv; n_points := None |} ]
          else []))) /\
  (exists evs0,
     detect 5 50 [r0] = Ok evs0 /\
     detect 5 50 ([r0] ++ r1 :: [r2]) = Ok (evs0 ++ [ev])).
Proof.
  intros r0 r1 r2 ev. split.
  - apply (proj2 (proj1 end_of_stream_flush 5%Q 50 [r0; r1] r2
                    (inside [] 100 12 ("okx"%string, "kraken"%string))
                    eq_refl)).
    reflexivity.
  - apply (proj1 (proj2 end_of_stream_flush) 5%Q 50 [r0] r1 [r2]);
      reflexivity.
Defined.

(** ** Crossing the threshold *)

Lemma step_cases th p st r :
  armed st ->
  exists st',
    step th p st r = Ok st' /\
    (in_event st' = true <-> (th <= spread_bps r)%Q) /\
    (in_event st' = false <-> (spread_bps r < th)%Q) /\
    (in_event st = false -> (th <= spread_bps r)%Q ->
     start st' = Some (ts_ms r) /\ events st' = events st) /\
    (in_event st = true -> (th <= spread_bps r)%Q ->
     start st' = start st /\ events st' = events st) /\
    (in_event st = true -> (spread_bps r < th)%Q ->
     exists s pk pv,
       start st = Some s /\ peak st = Some pk /\ peak_v st = Some pv /\
       events st' =
       events st ++
       (if ts_ms r - s >=? p
        then [ {| start_ms := s; end_ms := ts_ms r;
                  duration_ms := ts_ms r - s; peak_bps := pk;
                  e_min_venue := fst pv; e_max_venue := snd pv;
                  n_points := None |} ]
        else [])) /\
    (in_event st = false -> (spread_bps r < th)%Q -> st' = st).
Proof.
  intro Ha.
  assert (Hge : above th r = true <-> (th <= spread_bps r)%Q)
    by apply Qgeb_true.
  assert (Hlt : above th r = false <-> (spread_bps r < th)%Q)
    by apply Qgeb_false.
  destruct (step_total th p st r Ha) as (st' & Hstep & _ & Hin').
  exists st'. split; [exact Hstep|].
  rewrite Hin'. split; [exact Hge|]. split; [exact Hlt|].
  split; [|split; [|split]].
  - intros Hout Hab. apply Hge in Hab.
    rewrite step_enter in Hstep by assumption.
    injection Hstep as <-. split; reflexivity.
  - intros Hin Hab. apply Hge in Hab.
    destruct (armed_inside st Ha Hin) as (s & pk & pv & E).
    rewrite E in Hstep |- *. rewrite step_stay in Hstep by assumption.
    injection Hstep as <-.
    destruct (Qgtb (spread_bps r) pk); split; reflexivity.
  - intros Hin Hab. apply Hlt in Hab.
    destruct (armed_inside st Ha Hin) as (s & pk & pv & E).
    exists s, pk, pv. rewrite E in Hstep. rewrite E at 1 2 3.
    repeat (split; [reflexivity|]).
    rewrite step_exit in Hstep by assumption.
    injection Hstep as <-. reflexivity.
  - intros Hout Hab. apply Hlt in Hab.
    rewrite step_idle in Hstep by assumption.
    injection Hstep as <-. reflexivity.
Qed.

(** C2.  The extractor enters on a sample at or above the threshold and
    leaves on a sample strictly below it.  After every step from a state the
    loop can reach, the extractor is inside exactly when the sample is at or
    above the threshold and outside exactly when it is below; entering records
    the sample's timestamp as start; a sample at or above the threshold met
    while inside changes neither the start nor the events; leaving computes
    the end as the timestamp of that first sample below the threshold.  On
    the samples: after a prefix that ends outside, a run at or above the
    threshold followed by a sample [b] below it gives the interval from the
    first sample of the run to [b].  Last, the spreads [4.9,5.0,5.1,4.9] at
    [0,10,20,30] with threshold 5.0: outside after 0, inside from 10, closed
    at 30 with duration 20. *)
Theorem threshold_crossing :
  (forall th p rows st r,
     scan th p init_state rows = Ok st ->
     exists st',
       step th p st r = Ok st' /\
       (in_event st' = true <-> (th <= spread_bps r)%Q) /\
       (in_event st' = false <-> (spread_bps r < th)%Q) /\
       (in_event st = false -> (th <= spread_bps r)%Q ->
        start st' = Some (ts_ms r) /\ events st' = events st) /\
       (in_event st = true -> (th <= spread_bps r)%Q ->
        start st' = start st /\ events st' = events st) /\
       (in_event st = true -> (spread_bps r < th)%Q ->
        exists s pk pv,
          start st = Some s /\ peak st = Some pk /\ peak_v st = Some pv /\
          events st' =
          events st ++
          (if ts_ms r - s >=? p
           then [ {| start_ms := s; end_ms := ts_ms r;
                     duration_ms := ts_ms r - s; peak_bps := pk;
                     e_min_venue := fst pv; e_max_venue := snd pv;
                     n_points := None |} ]
           else [])) /\
       (in_event st = false -> (spread_bps r < th)%Q -> st' = st)) /\
  (forall th p pre r run b,
     outside_after th pre = true ->
     forallb (above th) (r :: run) = true ->
     above th b = false ->
     exists st0 st1,
       scan th p init_state pre = Ok st0 /\
       scan th p init_state (pre ++ r :: run ++ [b]) = Ok st1 /\
       in_event st1 = false /\
       events st1 =
       events st0 ++
       (if ts_ms b - ts_ms r >=? p then [interval_event r run (ts_ms b)]
        else [])) /\
  (forall p v w m n,
     let r0 := MetricRow 0 v w m n 4.9 in
     let r1 := MetricRow 10 v w m n 5.0 in
     let r2 := MetricRow 20 v w m n 5.1 in
     let r3 := MetricRow 30 v w m n 4.9 in
     scan 5.0 p init_state [r0] = Ok init_state /\
     scan 5.0 p init_state [r0; r1] = Ok (inside [] 10 5.0 (v, w)) /\
     scan 5.0 p init_state [r0; r1; r2] = Ok (inside [] 10 5.1 (v, w)) /\
     detect 5.0 p [r0; r1; r2; r3] =
     Ok (if 20 >=? p
         then [ {| start_ms := 10; end_ms := 30; duration_ms := 20;
                   peak_bps := 5.1; e_min_venue := v; e_max_venue := w;
                   n_points := None |} ]
         else [])).
Proof.
  split; [|split].
  - intros th p rows st r Hs. apply step_cases.
    exact (scan_armed th p _ _ _ armed_init Hs).
  - intros th p pre r run b. apply interval_closed.
  - intros p v w m n r0 r1 r2 r3.
    repeat split. cbn. destruct (20 >=? p); reflexivity.
Qed.

Lemma threshold_crossing_witness :
  let r0 := MetricRow 0 "okx"%string "kraken"%string 100 101 4.9 in
  let r1 := MetricRow 10 "okx"%string "kraken"%string 100 101 5.0 in
  let r2 := MetricRow 20 "okx"%string "kraken"%string 100 101 5.1 in
  let r3 := MetricRow 30 "okx"%string "kraken"%string 100 101 4.9 in
  (exists st',
     step 5.0 15 (inside [] 10 5.0 ("okx"%string, "kraken"%string)) r3 = Ok st' /\
     in_event st' = false /\
     start_ms (last (events st') (Event 0 0 0 0 EmptyString EmptyString None))
     = 10) /\
  (exists st0 st1,
     scan 5.0 15 init_state [r0] = Ok st0 /\
     scan 5.0 15 init_state ([r0] ++ r1 :: [r2] ++ [r3]) = Ok st1 /\
     in_event st1 = false /\
     events st1 = events st0 ++ [interval_event r1 [r2] 30]).
Proof.
  intros r0 r1 r2 r3. split.
  - destruct (proj1 threshold_crossing 5.0%Q 15 [r0; r1]
                (inside [] 10 5.0 ("okx"%string, "kraken"%string)) r3
                eq_refl)
      as (st' & Hstep & _ & Hout & _ & _ & Hexit & _).
    exists st'. split; [exact Hstep|].
    split; [apply Hout; reflexivity|].
    destruct (Hexit eq_refl eq_refl) as (s & pk & pv & Hs & _ & _ & ->).
    injection Hs as <-. reflexivity.
  - apply (proj1 (proj2 threshold_crossing) 5.0%Q 15 [r0] r1 [r2] r3);
      reflexivity.
Defined.

(** C3.  Every emitted event, closed in mid-stream or by the flush at the
    end, has a duration of at least [persistence_ms]: the extraction always
    returns, and each event it returns has [duration_ms = end_ms - start_ms]
    and [duration_ms >= persistence_ms].  A shorter interval leaves no
    record: closed in mid-stream, the events are those before it; open at the
    end, the result is that of the samples before it. *)
Theorem persistence_filter :
  (forall th p rows,
     exists evs, detect th p rows = Ok evs /\ Forall (passes p) evs) /\
  (forall th p pre r run b,
     outside_after th pre = true ->
     forallb (above th) (r :: run) = true ->
     above th b = false ->
     ts_ms b - ts_ms r < p ->
     exists st0 st1,
       scan th p init_state pre = Ok st0 /\
       scan th p init_state (pre ++ r :: run ++ [b]) = Ok st1 /\
       in_event st1 = false /\ events st1 = events st0) /\
  (forall th p pre r run,
     outside_after th pre = true ->
     forallb (above th) (r :: run) = true ->
     ts_ms (last run r) - ts_ms r < p ->
     exists evs0,
       detect th p pre = Ok evs0 /\ detect th p (pre ++ r :: run) = Ok evs0).
Proof.
  split; [|split].
  - intros th p rows. apply detect_total.
  - intros th p pre r run b Hpre Hrun Hb Hshort.
    destruct (interval_closed th p pre r run b Hpre Hrun Hb)
      as (st0 & st1 & Hs0 & Hs1 & Hout & Hev).
    exists st0, st1. repeat (split; [assumption|]).
    rewrite Hev.
    replace (ts_ms b - ts_ms r >=? p) with false
      by (symmetry; rewrite Z.geb_leb; apply Z.leb_gt; exact Hshort).
    apply app_nil_r.
  - intros th p pre r run Hpre Hrun Hshort.
    destruct (interval_flushed th p pre r run Hpre Hrun)
      as (st0 & _ & Hd & Hflush).
    exists (events st0). split; [exact Hd|].
    rewrite Hflush.
    replace (ts_ms (last run r) - ts_ms r >=? p) with false
      by (symmetry; rewrite Z.geb_leb; apply Z.leb_gt; exact Hshort).
    rewrite app_nil_r. reflexivity.
Qed.

Lemma persistence_filter_witness :
  let r0 := MetricRow 0 "okx"%string "kraken"%string 100 101 4 in
  let r1 := MetricRow 10 "okx"%string "kraken"%string 100 101 6 in
  let r2 := MetricRow 20 "okx"%string "kraken"%string 100 101 7 in
  let r3 := MetricRow 30 "okx"%string "kraken"%string 100 101 4 in
  (exists st0 st1,
     scan 5 300 init_state [r0] = Ok st0 /\
     scan 5 300 init_state ([r0] ++ r1 :: [r2] ++ [r3]) = Ok st1 /\
     in_event st1 = false /\ events st1 = events st0) /\
  (exists evs0,
     detect 5 300 [r0] = Ok evs0 /\
     detect 5 300 ([r0] ++ r1 :: [r2]) = Ok evs0).
Proof.
  intros r0 r1 r2 r3. split.
  - apply (proj1 (proj2 persistence_filter) 5%Q 300 [r0] r1 [r2] r3);
      reflexivity.
  - apply (proj2 (proj2 persistence_filter) 5%Q 300 [r0] r1 [r2]);
      reflexivity.
Defined.

(** ** Order of the events *)

Lemma last_cons_shift (l : list metric_row) a d :
  last (a :: l) d = last l a.
Proof.
  destruct l as [|b l]; [reflexivity|].
  change (last (b :: l) d = last (b :: l) a). apply last_cons_default.
Qed.

Lemma sorted_snoc (evs : list event) (e : event) :
  Sorted before evs -> Forall (fun x => end_ms x <= start_ms e) evs ->
  Sorted before (evs ++ [e]).
Proof.
  induction evs as [|a evs IH]; intros Hs Hall; simpl.
  - repeat constructor.
  - apply Sorted_inv in Hs as [Hs Hhd]. inversion Hall as [|? ? Ha Hall']; subst.
    constructor; [apply IH; assumption|].
    destruct evs as [|b evs]; simpl; constructor.
    + exact Ha.
    + inversion Hhd; subst. assumption.
Qed.

Lemma sorted_adjacent (evs : list event) :
  Sorted before evs ->
  forall i e1 e2,
    nth_error evs i = Some e1 -> nth_error evs (S i) = Some e2 ->
    end_ms e1 <= start_ms e2.
Proof.
  induction 1 as [|a evs Hs IH Hhd]; intros i e1 e2 H1 H2.
  - destruct i; discriminate H1.
  - destruct i as [|i]; simpl in H1, H2.
    + injection H1 as <-. destruct evs as [|b evs]; [discriminate H2|].
      simpl in H2. injection H2 as <-. inversion Hhd; subst. assumption.
    + exact (IH i e1 e2 H1 H2).
Qed.

Lemma ends_by_mono (c c' : Z) (evs : list event) :
  c <= c' ->
  Forall (fun e => start_ms e <= end_ms e /\ end_ms e <= c) evs ->
  Forall (fun e => start_ms e <= end_ms e /\ end_ms e <= c') evs.
Proof.
  intros Hc. apply Forall_impl. intros e [H1 H2]. split; lia.
Qed.

Lemma ends_by_start (c s : Z) (evs : list event) :
  c <= s ->
  Forall (fun e => start_ms e <= end_ms e /\ end_ms e <= c) evs ->
  Forall (fun e => end_ms e <= s) evs.
Proof.
  intros Hc. apply Forall_impl. intros e [H1 H2]. lia.
Qed.

Section Ordering.

Variable th : Q.
Variable p : Z.

Lemma step_timeline st r st' c :
  armed st -> timeline c st -> c <= ts_ms r ->
  step th p st r = Ok st' -> timeline (ts_ms r) st'.
Proof.
  intros Ha (Hev & Hsorted & Hopen) Hc Hstep.
  destruct (in_event st) eqn:Hin; destruct (above th r) eqn:Hab.
  - destruct (armed_inside st Ha Hin) as (s & pk & pv & E).
    destruct (Hopen eq_refl) as (s' & Hs' & Hle & Hall).
    rewrite E in Hstep, Hs'. rewrite step_stay in Hstep by assumption.
    simpl in Hs'. injection Hs' as <-.
    assert (T : timeline (ts_ms r) (inside (events st) s pk pv) /\
                timeline (ts_ms r)
                  (inside (events st) s (spread_bps r)
                     (min_venue r, max_venue r))).
    { split; (split; [exact (ends_by_mono c _ _ Hc Hev)|]);
        (split; [exact Hsorted|]); intros _; exists s;
        (split; [reflexivity|]); (split; [lia|exact Hall]). }
    injection Hstep as <-. destruct (Qgtb (spread_bps r) pk); apply T.
  - destruct (armed_inside st Ha Hin) as (s & pk & pv & E).
    destruct (Hopen eq_refl) as (s' & Hs' & Hle & Hall).
    rewrite E in Hstep, Hs'. rewrite step_exit in Hstep by assumption.
    simpl in Hs'. injection Hs' as <-. injection Hstep as <-.
    unfold timeline. cbn [events in_event].
    split; [|split; [|intro H; discriminate H]].
    + apply Forall_app. split; [exact (ends_by_mono c _ _ Hc Hev)|].
      destruct (ts_ms r - s >=? p); constructor; [|constructor].
      simpl. lia.
    + destruct (ts_ms r - s >=? p).
      * apply sorted_snoc; [exact Hsorted|exact Hall].
      * rewrite app_nil_r. exact Hsorted.
  - rewrite step_enter in Hstep by assumption. injection Hstep as <-.
    split; [exact (ends_by_mono c _ _ Hc Hev)|]. split; [exact Hsorted|].
    intros _. exists (ts_ms r). split; [reflexivity|]. split; [lia|].
    exact (ends_by_start c _ _ Hc Hev).
  - rewrite step_idle in Hstep by assumption. injection Hstep as <-.
    split; [exact (ends_by_mono c _ _ Hc Hev)|]. split; [exact Hsorted|].
    intro H. congruence.
Qed.

Lemma scan_timeline rest : forall r st st' c,
  armed st -> timeline c st ->
  Sorted Z.le (c :: map ts_ms (r :: rest)) ->
  scan th p st (r :: rest) = Ok st' ->
  timeline (ts_ms (last rest r)) st'.
Proof.
  induction rest as [|a rest IH]; intros r st st' c Ha Ht Hsorted Hs.
  - simpl in Hs. destruct (step th p st r) as [st1|] eqn:Hstep;
      [|discriminate Hs].
    simpl in Hs. injection Hs as <-. simpl.
    apply (step_timeline st r st1 c Ha Ht); [|exact Hstep].
    apply Sorted_inv in Hsorted as [_ Hhd]. inversion Hhd; assumption.
  - change (scan th p st (r :: a :: rest))
      with (st1 <- step th p st r ;; scan th p st1 (a :: rest)) in Hs.
    destruct (step_total th p st r Ha) as (st1 & Hstep & Ha1 & _).
    rewrite Hstep in Hs. cbn [bind] in Hs.
    apply Sorted_inv in Hsorted as [Hsorted Hhd].
    rewrite last_cons_shift.
    apply (IH a st1 st' (ts_ms r) Ha1); [|exact Hsorted|exact Hs].
    apply (step_timeline st r st1 c Ha Ht); [|exact Hstep].
    inversion Hhd; assumption.
Qed.

Lemma detect_ordered rows :
  Sorted Z.le (map ts_ms rows) ->
  exists evs,
    detect th p rows = Ok evs /\
    Forall (fun e => start_ms e <= end_ms e) evs /\
    Sorted before evs.
Proof.
  intro Hsorted. destruct rows as [|a rows].
  - exists []. repeat split; constructor.
  - rewrite detect_cons.
    destruct (scan_total th p (a :: rows) init_state armed_init)
      as (st & Hs & Ha).
    rewrite Hs. cbn [bind].
    assert (Ht : timeline (ts_ms (last rows a)) st).
    { apply (scan_timeline rows a init_state st (ts_ms a) armed_init);
        [|constructor; [exact Hsorted|constructor; simpl; lia]|exact Hs].
      split; [constructor|]. split; [constructor|].
      intro H. discriminate H. }
    destruct Ht as (Hev & Hsort & Hopen).
    assert (Hse : Forall (fun e => start_ms e <= end_ms e) (events st)).
    { revert Hev. apply Forall_impl. intros e [H _]. exact H. }
    unfold close_trailing. destruct (in_event st) eqn:Hin.
    + destruct (armed_inside st Ha Hin) as (s & pk & pv & E).
      destruct (Hopen eq_refl) as (s' & Hs' & Hle & Hall).
      rewrite last_ts_cons. cbn [bind]. rewrite E in Hs' |- *.
      simpl in Hs'. injection Hs' as <-. cbn.
      destruct (ts_ms (last rows a) - s >=? p); cbn.
      * eexists. split; [reflexivity|]. split.
        -- apply Forall_app. split; [exact Hse|].
           constructor; [simpl; lia|constructor].
        -- apply sorted_snoc; [exact Hsort|exact Hall].
      * eexists. split; [reflexivity|]. split; assumption.
    + eexists. split; [reflexivity|]. split; assumption.
Qed.

End Ordering.

(** C10.  On metric rows with non-decreasing timestamps the extraction
    returns events that are ordered and do not overlap: each event starts no
    later than it ends, and each event starts at or after the end of the
    event emitted before it. *)
Theorem events_ordered (th : Q) (p : Z) (rows : list metric_row) :
  Sorted Z.le (map ts_ms rows) ->
  exists evs,
    detect th p rows = Ok evs /\
    Forall (fun e => start_ms e <= end_ms e) evs /\
    (forall i e1 e2,
       nth_error evs i = Some e1 -> nth_error evs (S i) = Some e2 ->
       end_ms e1 <= start_ms e2).
Proof.
  intro Hsorted.
  destruct (detect_ordered th p rows Hsorted) as (evs & Hd & Hse & Hsort).
  exists evs. split; [exact Hd|]. split; [exact Hse|].
  exact (sorted_adjacent evs Hsort).
Qed.

Lemma events_ordered_witness :
  let row (t : Z) (b : Q) :=
    MetricRow t "okx"%string "kraken"%string 100 101 b in
  exists evs,
    detect 5 10 [row 0 6%Q; row 20 7%Q; row 30 4%Q; row 30 8%Q; row 50 3%Q;
                 row 60 9%Q]
    = Ok evs /\
    Forall (fun e => start_ms e <= end_ms e) evs /\
    (forall i e1 e2,
       nth_error evs i = Some e1 -> nth_error evs (S i) = Some e2 ->
       end_ms e1 <= start_ms e2).
Proof.
  intro row. apply events_ordered. simpl.
  repeat (constructor; try (simpl; lia)).
Defined.

(** ** As-of merge *)

Lemma dict_get_set d k x v :
  dict_get (dict_set d k x) v =
  if String.eqb k v then Some x else dict_get d v.
Proof.
  induction d as [|[k' x'] d IH]; simpl.
  - reflexivity.
  - destruct (String.eqb k' k) eqn:Ek; simpl.
    + apply String.eqb_eq in Ek. subst k'.
      destruct (String.eqb k v); reflexivity.
    + rewrite IH. destruct (String.eqb k' v) eqn:Ev; [|reflexivity].
      apply String.eqb_eq in Ev. subst k'.
      rewrite String.eqb_sym, Ek. reflexivity.
Qed.

Lemma merge_step_inv st tk st' :
  merge_step st tk = Ok st' ->
  last_mid st' = dict_set (last_mid st) (venue tk) (mid tk) /\
  ((List.length (last_mid st') < 2)%nat -> metric_rows st' = metric_rows st).
Proof.
  unfold merge_step.
  set (lm := dict_set (last_mid st) (venue tk) (mid tk)).
  destruct (2 <=? List.length lm)%nat eqn:E.
  - destruct (py_min lm) as [mn|]; [|discriminate]. cbn [bind].
    destruct (py_max lm) as [mx|]; [|discriminate]. cbn [bind].
    destruct (float_div _ _) as [q|]; [|discriminate]. cbn [bind].
    intro H. injection H as <-. simpl. split; [reflexivity|].
    apply Nat.leb_le in E. lia.
  - intro H. injection H as <-. simpl. split; reflexivity.
Qed.

Lemma merge_from_app a : forall st b,
  merge_from st (a ++ b) = (st' <- merge_from st a ;; merge_from st' b).
Proof.
  induction a as [|tk a IH]; intros st b; simpl; [reflexivity|].
  destruct (merge_step st tk) as [st1|]; simpl; [apply IH|reflexivity].
Qed.

Lemma merge_from_lookup v ticks : forall st st',
  merge_from st ticks = Ok st' ->
  dict_get (last_mid st') v =
  match latest_mid v ticks with
  | Some m => Some m
  | None => dict_get (last_mid st) v
  end.
Proof.
  induction ticks as [|tk ticks IH]; intros st st' H; simpl in H.
  - injection H as <-. reflexivity.
  - destruct (merge_step st tk) as [st1|] eqn:Hstep; [|discriminate H].
    cbn [bind] in H. rewrite (IH st1 st' H). simpl.
    destruct (latest_mid v ticks); [reflexivity|].
    destruct (merge_step_inv st tk st1 Hstep) as [-> _].
    rewrite dict_get_set.
    destruct (String.eqb (venue tk) v); reflexivity.
Qed.

(** With a single venue reporting, the state holds at most one entry and no
    sample is appended. *)
Lemma merge_from_single v0 ticks : forall st st',
  (last_mid st = [] \/ exists m, last_mid st = [(v0, m)]) ->
  Forall (fun tk => venue tk = v0) ticks ->
  merge_from st ticks = Ok st' ->
  metric_rows st' = metric_rows st.
Proof.
  induction ticks as [|tk ticks IH]; intros st st' Hlm Hall H; simpl in H.
  - injection H as <-. reflexivity.
  - inversion Hall as [|? ? Hv Hall']; subst.
    destruct (merge_step st tk) as [st1|] eqn:Hstep; [|discriminate H].
    cbn [bind] in H.
    destruct (merge_step_inv st tk st1 Hstep) as [Hlm1 Hrows].
    assert (Hone : exists m, last_mid st1 = [(venue tk, m)]).
    { rewrite Hlm1. destruct Hlm as [->|[m ->]]; simpl.
      - eauto.
      - rewrite String.eqb_refl. eauto. }
    rewrite (IH st1 st' (or_intror Hone) Hall' H).
    apply Hrows. destruct Hone as [m ->]. simpl. lia.
Qed.

Lemma latest_mid_none v ticks :
  latest_mid v ticks = None -> Forall (fun u => venue u <> v) ticks.
Proof.
  induction ticks as [|tk ticks IH]; simpl; intro H; [constructor|].
  destruct (latest_mid v ticks); [discriminate H|].
  destruct (String.eqb (venue tk) v) eqn:E; [discriminate H|].
  constructor; [|apply IH; reflexivity].
  apply String.eqb_neq. exact E.
Qed.

Lemma latest_mid_some v ticks : forall m,
  latest_mid v ticks = Some m ->
  exists pre t post,
    ticks = pre ++ t :: post /\ venue t = v /\ mid t = m /\
    Forall (fun u => venue u <> v) post.
Proof.
  induction ticks as [|tk ticks IH]; simpl; intros m H; [discriminate H|].
  destruct (latest_mid v ticks) as [m'|] eqn:E.
  - injection H as <-.
    destruct (IH m' eq_refl) as (pre & t & post & -> & Hv & Hm & Hpost).
    exists (tk :: pre), t, post. repeat split; assumption.
  - destruct (String.eqb (venue tk) v) eqn:Ev; [|discriminate H].
    injection H as <-. apply String.eqb_eq in Ev.
    exists [], tk, ticks. repeat split; [assumption|].
    apply latest_mid_none. exact E.
Qed.

Lemma sorted_before_pivot (pre : list tick) t post :
  Sorted Z.le (map tick_ts_ms (pre ++ t :: post)) ->
  Forall (fun u => tick_ts_ms u <= tick_ts_ms t) pre.
Proof.
  intro Hs. apply Sorted_StronglySorted in Hs;
    [|intros x y z; apply Z.le_trans].
  induction pre as [|a pre IH]; [constructor|].
  simpl in Hs. apply StronglySorted_inv in Hs as [Hs Hall].
  constructor; [|apply IH; exact Hs].
  rewrite Forall_forall in Hall. apply Hall.
  rewrite map_app. apply in_or_app. right. left. reflexivity.
Qed.

(** C4.  After any prefix of the tick stream the entry of [last_mid] for a
    venue is the mid of the last tick of that venue in the prefix, whatever
    follows the prefix; with ticks in ascending timestamp order that tick is
    a latest one of the venue; a venue without a tick in the prefix has no
    entry; and as long as fewer than two distinct venues have reported, no
    metric row exists. *)
Theorem as_of_snapshot :
  (forall prefix rest st_end,
     build_metrics (prefix ++ rest) = Ok st_end ->
     exists st,
       build_metrics prefix = Ok st /\
       (forall v, dict_get (last_mid st) v = latest_mid v prefix) /\
       ((forall t1 t2, In t1 prefix -> In t2 prefix -> venue t1 = venue t2) ->
        metric_rows st = [])) /\
  (forall v ticks m,
     latest_mid v ticks = Some m ->
     exists pre t post,
       ticks = pre ++ t :: post /\ venue t = v /\ mid t = m /\
       Forall (fun u => venue u <> v) post /\
       (Sorted Z.le (map tick_ts_ms ticks) ->
        forall u, In u ticks -> venue u = v ->
                  tick_ts_ms u <= tick_ts_ms t)) /\
  (forall v ticks,
     latest_mid v ticks = None -> Forall (fun u => venue u <> v) ticks).
Proof.
  split; [|split].
  - intros prefix rest st_end H. unfold build_metrics in *.
    rewrite merge_from_app in H.
    destruct (merge_from merge_init prefix) as [st|] eqn:Hp; [|discriminate H].
    exists st. split; [reflexivity|]. split.
    + intro v. rewrite (merge_from_lookup v prefix merge_init st Hp).
      destruct (latest_mid v prefix); reflexivity.
    + intro Hsame. destruct prefix as [|t0 prefix].
      * simpl in Hp. injection Hp as <-. reflexivity.
      * apply (merge_from_single (venue t0) (t0 :: prefix) merge_init st);
          [left; reflexivity| |exact Hp].
        apply Forall_forall. intros u Hu.
        apply Hsame; [exact Hu|left; reflexivity].
  - intros v ticks m H.
    destruct (latest_mid_some v ticks m H)
      as (pre & t & post & E & Hv & Hm & Hpost).
    exists pre, t, post. repeat (split; [assumption|]).
    intros Hs u Hu Huv. subst ticks.
    apply in_app_or in Hu as [Hu|[<-|Hu]].
    + pose proof (sorted_before_pivot pre t post Hs) as Hall.
      rewrite Forall_forall in Hall. apply Hall. exact Hu.
    + lia.
    + rewrite Forall_forall in Hpost. exfalso. exact (Hpost u Hu Huv).
  - intros v ticks. apply latest_mid_none.
Qed.

Lemma as_of_snapshot_witness :
  let ticks := [Tick 0 "okx"%string 100; Tick 5 "okx"%string 101;
                Tick 7 "kraken"%string 102] in
  (exists st,
     build_metrics (firstn 2 ticks) = Ok st /\
     (forall v, dict_get (last_mid st) v = latest_mid v (firstn 2 ticks)) /\
     metric_rows st = []) /\
  (exists pre t post,
     ticks = pre ++ t :: post /\ venue t = "okx"%string /\ mid t = 101%Q /\
     forall u, In u ticks -> venue u = "okx"%string ->
               tick_ts_ms u <= tick_ts_ms t).
Proof.
  intro ticks. split.
  - destruct (proj1 as_of_snapshot (firstn 2 ticks) (skipn 2 ticks)
                {| last_mid := [("okx"%string, 101%Q);
                                ("kraken"%string, 102%Q)];
                   metric_rows :=
                     [ {| ts_ms := 7; min_venue := "okx"%string;
                          max_venue := "kraken"%string; min_mid := 101;
                          max_mid := 102;
                          spread_bps := ((102 - 101) / ((101 + 102) / 2)
                                         * 10000)%Q |} ] |}
                eq_refl)
      as (st & Hb & Hget & Hrows).
    exists st. split; [exact Hb|]. split; [exact Hget|].
    apply Hrows. intros t1 t2 H1 H2.
    destruct H1 as [<-|[<-|[]]]; destruct H2 as [<-|[<-|[]]]; reflexivity.
  - destruct (proj1 (proj2 as_of_snapshot) "okx"%string ticks 101%Q eq_refl)
      as (pre & t & post & E & Hv & Hm & _ & Hlatest).
    exists pre, t, post. repeat (split; [assumption|]).
    apply Hlatest. simpl. repeat (constructor; try (simpl; lia)).
Defined.

(** ** The division by [avg_mid] *)

Lemma min_from_In items : forall best,
  In (min_from best items) (best :: items).
Proof.
  induction items as [|x items IH]; intro best; simpl; [left; reflexivity|].
  destruct (IH (if Qgtb (snd best) (snd x) then x else best)) as [H|H].
  - destruct (Qgtb (snd best) (snd x)); rewrite <- H; auto.
  - right. right. exact H.
Qed.

Lemma max_from_In items : forall best,
  In (max_from best items) (best :: items).
Proof.
  induction items as [|x items IH]; intro best; simpl; [left; reflexivity|].
  destruct (IH (if Qgtb (snd x) (snd best) then x else best)) as [H|H].
  - destruct (Qgtb (snd x) (snd best)); rewrite <- H; auto.
  - right. right. exact H.
Qed.

Lemma dict_set_positive d k x :
  Forall (fun kv => (0 < snd kv)%Q) d -> (0 < x)%Q ->
  Forall (fun kv => (0 < snd kv)%Q) (dict_set d k x).
Proof.
  intros Hd Hx. induction d as [|[k' x'] d IH]; simpl.
  - constructor; [exact Hx|constructor].
  - inversion Hd as [|? ? Hk Hd']; subst.
    destruct (String.eqb k' k); constructor; auto.
Qed.

Lemma float_div_positive x a b :
  (0 < a)%Q -> (0 < b)%Q ->
  float_div x ((a + b) / 2) = Ok (x / ((a + b) / 2))%Q.
Proof.
  intros Ha Hb. unfold float_div.
  destruct (Qeq_bool ((a + b) / 2) 0) eqn:E; [|reflexivity].
  apply Qeq_bool_iff in E. exfalso.
  assert (H : (0 < (a + b) / 2)%Q) by (apply Qlt_shift_div_l; lra).
  rewrite E in H. exact (Qlt_irrefl 0 H).
Qed.

(** On ticks with positive mids the merge never raises, and every sample it
    emits has positive [min_mid] and [max_mid]. *)
Lemma merge_step_positive st tk :
  Forall (fun kv => (0 < snd kv)%Q) (last_mid st) ->
  Forall (fun r => (0 < min_mid r)%Q /\ (0 < max_mid r)%Q) (metric_rows st) ->
  (0 < mid tk)%Q ->
  exists st',
    merge_step st tk = Ok st' /\
    Forall (fun kv => (0 < snd kv)%Q) (last_mid st') /\
    Forall (fun r => (0 < min_mid r)%Q /\ (0 < max_mid r)%Q) (metric_rows st').
Proof.
  intros Hlm Hrows Hm. unfold merge_step.
  pose proof (dict_set_positive _ (venue tk) _ Hlm Hm) as Hpos.
  destruct (dict_set (last_mid st) (venue tk) (mid tk)) as [|x rest].
  - eexists. split; [reflexivity|]. split; [constructor|exact Hrows].
  - destruct (2 <=? List.length (x :: rest))%nat.
    + cbn [py_min py_max bind].
      rewrite Forall_forall in Hpos.
      pose proof (Hpos _ (min_from_In rest x)) as Hmin.
      pose proof (Hpos _ (max_from_In rest x)) as Hmax.
      rewrite float_div_positive by assumption. cbn [bind].
      eexists. split; [reflexivity|]. cbn [last_mid metric_rows]. split.
      * apply Forall_forall. exact Hpos.
      * apply Forall_app. split; [exact Hrows|].
        constructor; [|constructor]. simpl. split; assumption.
    + eexists. split; [reflexivity|]. split; assumption.
Qed.

Lemma build_metrics_positive ticks :
  Forall (fun tk => (0 < mid tk)%Q) ticks ->
  exists st,
    build_metrics ticks = Ok st /\
    Forall (fun r => (0 < min_mid r)%Q /\ (0 < max_mid r)%Q) (metric_rows st).
Proof.
  unfold build_metrics.
  assert (G : forall st,
    Forall (fun kv => (0 < snd kv)%Q) (last_mid st) ->
    Forall (fun r => (0 < min_mid r)%Q /\ (0 < max_mid r)%Q)
      (metric_rows st) ->
    Forall (fun tk => (0 < mid tk)%Q) ticks ->
    exists st',
      merge_from st ticks = Ok st' /\
      Forall (fun r => (0 < min_mid r)%Q /\ (0 < max_mid r)%Q)
        (metric_rows st')).
  { induction ticks as [|tk ticks IH]; intros st Hlm Hrows Hall; simpl.
    - exists st. split; [reflexivity|exact Hrows].
    - inversion Hall as [|? ? Hm Hall']; subst.
      destruct (merge_step_positive st tk Hlm Hrows Hm)
        as (st1 & -> & Hlm1 & Hrows1).
      cbn [bind]. apply IH; assumption. }
  apply G; constructor.
Qed.

(** C7.  The division by [avg_mid] at line 63 has no guard.  Two venues with
    mid 0 make [avg_mid] zero and the run stops with [ZeroDivisionError]; two
    venues with negative mids make [avg_mid] negative and the sample is
    emitted all the same. *)
Theorem division_unguarded :
  build_metrics [Tick 0 "okx"%string 0; Tick 1 "kraken"%string 0]
  = Raise ZeroDivisionError /\
  build_metrics [Tick 0 "okx"%string (-1); Tick 1 "kraken"%string (-3)]
  = Ok {| last_mid := [("okx"%string, (-1)%Q); ("kraken"%string, (-3)%Q)];
          metric_rows :=
            [ {| ts_ms := 1; min_venue := "kraken"%string;
                 max_venue := "okx"%string; min_mid := -3; max_mid := -1;
                 spread_bps := (-40000 # 4)%Q |} ] |}.
Proof. split; reflexivity. Qed.

(** ** The peak of an interval *)

Lemma peak_of_spec run : forall pk pv,
  let pp := peak_of pk pv run in
  (pk <= fst pp)%Q /\
  Forall (fun y => (spread_bps y <= fst pp)%Q) run /\
  (pp = (pk, pv) \/
   exists x, In x run /\ pp = (spread_bps x, (min_venue x, max_venue x))).
Proof.
  induction run as [|r run IH]; intros pk pv; simpl.
  - split; [apply Qle_refl|]. split; [constructor|left; reflexivity].
  - destruct (Qgtb (spread_bps r) pk) eqn:G.
    + apply Qgtb_true in G.
      destruct (IH (spread_bps r) (min_venue r, max_venue r))
        as (Hle & Hall & Hwho).
      split; [apply Qlt_le_weak; exact (Qlt_le_trans _ _ _ G Hle)|].
      split; [constructor; assumption|].
      right. destruct Hwho as [->|(x & Hx & ->)].
      * exists r. split; [left; reflexivity|reflexivity].
      * exists x. split; [right; exact Hx|reflexivity].
    + apply Qgtb_false in G.
      destruct (IH pk pv) as (Hle & Hall & Hwho).
      split; [exact Hle|].
      split; [constructor; [exact (Qle_trans _ _ _ G Hle)|exact Hall]|].
      destruct Hwho as [->|(x & Hx & ->)]; [left; reflexivity|].
      right. exists x. split; [right; exact Hx|reflexivity].
Qed.

(** The event of an interval records the greatest spread of its samples and
    the venue pair of a sample that has it. *)
Lemma interval_event_peak r run e :
  let ev := interval_event r run e in
  Forall (fun y => (spread_bps y <= peak_bps ev)%Q) (r :: run) /\
  exists x, In x (r :: run) /\ peak_bps ev = spread_bps x /\
            e_min_venue ev = min_venue x /\ e_max_venue ev = max_venue x.
Proof.
  unfold interval_event. cbn [peak_bps e_min_venue e_max_venue].
  destruct (peak_of_spec run (spread_bps r) (min_venue r, max_venue r))
    as (Hle & Hall & Hwho).
  split; [constructor; assumption|].
  destruct Hwho as [->|(x & Hx & ->)].
  - exists r. split; [left; reflexivity|]. repeat split.
  - exists x. split; [right; exact Hx|]. repeat split.
Qed.

End DetectEventsFacts.

(** * Facts about scripts/backtest.py *)

Module BacktestFacts.

Import Backtest.

(** ** Cost model *)

Section Costs.

Variable float_of_str : string -> option Q.




End Costs.



(** C5.  A cost component that is not a number makes
    [total_cost_bps_from_cfg] raise instead of counting as zero: an empty
    YAML value ([None]) raises [TypeError], a string that [float] does not
    parse raises [ValueError], and a run with events and ticks fails with
    that error before any trade is computed. *)
Theorem malformed_cost_raises :
  (forall float_of_str,
     total_cost_bps_from_cfg float_of_str
       [("costs_bps"%string,
         PDict [("fee_bps"%string, PInt 2); ("slippage_bps"%string, PNone)])]
     = Raise TypeError) /\
  (forall float_of_str,
     float_of_str "abc"%string = None ->
     total_cost_bps_from_cfg float_of_str
       [("costs_bps"%string, PDict [("fee_bps"%string, PStr "abc")])]
     = Raise ValueError) /\
  (forall float_of_str int_of_str r rs tk ticks has_spread,
     main float_of_str int_of_str
       [("costs_bps"%string,
         PDict [("fee_bps"%string, PInt 2); ("slippage_bps"%string, PNone)])]
       {| has_spread_bps := has_spread; rows := r :: rs |} (tk :: ticks)
     = Raise TypeError).
Proof.
  split; [|split].
  - intro f. reflexivity.
  - intros f Hf. unfold total_cost_bps_from_cfg. simpl. rewrite Hf.
    reflexivity.
  - intros. reflexivity.
Qed.

Lemma malformed_cost_raises_witness :
  total_cost_bps_from_cfg (fun _ => None)
    [("costs_bps"%string, PDict [("fee_bps"%string, PStr "abc")])]
  = Raise ValueError.
Proof.
  apply (proj1 (proj2 malformed_cost_raises) (fun _ => None)). reflexivity.
Defined.

(** ** Trades *)

Section Trades.

Variable float_of_str : string -> option Q.
Variable int_of_str : string -> option Z.

Lemma nearest_mid_uncovered ticks ts v :
  covered ticks v = false -> nearest_mid ticks ts v = None.
Proof.
  unfold covered, nearest_mid. intro H.
  assert (E : filter (fun t => String.eqb (venue t) v) ticks = []).
  { induction ticks as [|t ticks IH]; [reflexivity|].
    simpl in H |- *. apply orb_false_iff in H as [Ht H].
    rewrite Ht. apply IH. exact H. }
  rewrite E. reflexivity.
Qed.

Lemma nearest_mid_covered ticks ts v :
  covered ticks v = true -> exists m, nearest_mid ticks ts v = Some m.
Proof.
  unfold covered, nearest_mid. intro H.
  destruct (filter (fun t => String.eqb (venue t) v) ticks) as [|x rest] eqn:E.
  - exfalso. apply existsb_exists in H as (t & Hin & Ht).
    assert (Hf : In t (filter (fun t => String.eqb (venue t) v) ticks))
      by (apply filter_In; split; assumption).
    rewrite E in Hf. exact Hf.
  - eexists. reflexivity.
Qed.



(** Without a carried spread, an unresolved entry mid drops the event. *)
Lemma trade_of_unresolved ticks cost lat has_spread r :
  carried_spread float_of_str has_spread r = None ->
  nearest_mid ticks (start_ms r + lat) (min_venue r) = None \/
  nearest_mid ticks (start_ms r + lat) (max_venue r) = None ->
  trade_of float_of_str ticks cost lat has_spread r = Ok None.
Proof.
  intros Hc Hn. unfold trade_of. rewrite Hc.
  destruct Hn as [Hn|Hn]; rewrite Hn.
  - reflexivity.
  - destruct (nearest_mid ticks (start_ms r + lat) (min_venue r));
      reflexivity.
Qed.


Lemma make_trades_length ticks cost lat has_spread rs : forall acc out,
  make_trades float_of_str ticks cost lat has_spread acc rs = Ok out ->
  (List.length out <= List.length acc + List.length rs)%nat /\
  (forall r, In r rs ->
     trade_of float_of_str ticks cost lat has_spread r = Ok None ->
     (List.length out < List.length acc + List.length rs)%nat).
Proof.
  induction rs as [|r rs IH]; intros acc out H; simpl in H.
  - injection H as <-. split; [simpl; lia|]. intros r [].
  - destruct (trade_of float_of_str ticks cost lat has_spread r)
      as [o|] eqn:Hr; [|discriminate H].
    cbn [bind] in H. destruct (IH _ out H) as [Hle Hlt].
    assert (Hacc : (List.length
                      (match o with Some t => acc ++ [t] | None => acc end)
                    <= List.length acc + 1)%nat).
    { destruct o; [rewrite length_app; simpl; lia|lia]. }
    split; [simpl; lia|].
    intros r' [<-|Hin] Hnone.
    + rewrite Hr in Hnone. injection Hnone as ->. simpl in *. lia.
    + specialize (Hlt r' Hin Hnone). simpl. lia.
Qed.

Lemma main_running cfg events ticks trades r :
  main float_of_str int_of_str cfg events ticks = Ok trades ->
  In r (rows events) -> ticks <> [] ->
  exists cost,
    total_cost_bps_from_cfg float_of_str cfg = Ok cost /\
    make_trades float_of_str ticks cost (latency_from_cfg int_of_str cfg)
      (has_spread_bps events) [] (rows events) = Ok trades.
Proof.
  unfold main. intros H Hin Hticks.
  destruct (rows events) as [|r0 rs]; [destruct Hin|].
  destruct ticks as [|tk ticks]; [congruence|].
  destruct (total_cost_bps_from_cfg float_of_str cfg) as [cost|];
    [|discriminate H].
  exists cost. split; [reflexivity|exact H].
Qed.

(** The body of the loop never raises: the division of line 169 is guarded
    by [mid_avg > 0]. *)
Lemma trade_of_total ticks cost lat has_spread r :
  exists o, trade_of float_of_str ticks cost lat has_spread r = Ok o.
Proof.
  unfold trade_of.
  destruct (carried_spread float_of_str has_spread r) as [q|];
    destruct (nearest_mid ticks (start_ms r + lat) (min_venue r)) as [le|];
    destruct (nearest_mid ticks (start_ms r + lat) (max_venue r)) as [se|];
    cbn [bind]; try (eexists; reflexivity).
  destruct (Qgtb ((le + se) / 2) 0) eqn:G; cbn [bind];
    [|eexists; reflexivity].
  unfold float_div.
  destruct (Qeq_bool ((le + se) / 2) 0) eqn:E.
  - exfalso. apply Qgtb_true in G. apply Qeq_bool_iff in E.
    rewrite E in G. exact (Qlt_irrefl 0 G).
  - cbn [bind]. eexists. reflexivity.
Qed.

Lemma make_trades_total ticks cost lat has_spread rs : forall acc,
  exists out,
    make_trades float_of_str ticks cost lat has_spread acc rs = Ok out.
Proof.
  induction rs as [|r rs IH]; intro acc; simpl.
  - exists acc. reflexivity.
  - destruct (trade_of_total ticks cost lat has_spread r) as (o & ->).
    cbn [bind]. apply IH.
Qed.

(** A run returns as soon as the cost model does. *)
Lemma main_total cfg events ticks cost :
  total_cost_bps_from_cfg float_of_str cfg = Ok cost ->
  exists trades, main float_of_str int_of_str cfg events ticks = Ok trades.
Proof.
  intro Hc. unfold main.
  destruct (rows events) as [|r rs]; [eexists; reflexivity|].
  destruct ticks as [|tk ticks]; [eexists; reflexivity|].
  rewrite Hc. cbn [bind]. apply make_trades_total.
Qed.

End Trades.



(** ** Events without tick coverage *)

(** An events frame that carries [spread_bps] yields a trade row for an event
    whose two venues have no tick at all: one event, one trade. *)
Lemma carried_spread_keeps_uncovered_event :
  let events := {| has_spread_bps := true;
                   rows := [ {| start_ms := 0; end_ms := 10;
                                min_venue := "okx"%string;
                                max_venue := "kraken"%string;
                                spread_cell := PFloat 24 |} ] |} in
  let ticks := [Tick 0 "bitstamp"%string 100] in
  let t := {| t_start_ms := 0; t_end_ms := 10; duration_ms := 10;
              entry_ts := 0; exit_ts := 10; long_venue := "okx"%string;
              short_venue := "kraken"%string; long_entry_mid := None;
              short_entry_mid := None; long_exit_mid := None;
              short_exit_mid := None; spread_bps := 24; pnl_bps := 24;
              total_cost_bps := 0; pnl_net_bps := (24 - 0)%Q |} in
  covered ticks "okx" = false /\
  covered ticks "kraken" = false /\
  main (fun _ => None) (fun _ => None) [] events ticks = Ok [t] /\
  ~ (List.length [t] < List.length (rows events))%nat.
Proof.
  intros events ticks t. repeat split. simpl. lia.
Qed.

(** C6, amended.  When the events frame carries no spread for an event (it
    has no [spread_bps] column, or the cell does not convert to a float) and
    both of the event's venues have no tick in the tick store, the event
    produces no trade row, and the run has strictly fewer trades than
    events. *)
Theorem uncovered_event_dropped
    (float_of_str : string -> option Q) (int_of_str : string -> option Z)
    (cfg : list (string * pyval)) (events : events_frame)
    (ticks : list tick) (trades : list trade) (r : event_row) :
  main float_of_str int_of_str cfg events ticks = Ok trades ->
  In r (rows events) ->
  carried_spread float_of_str (has_spread_bps events) r = None ->
  covered ticks (min_venue r) = false ->
  covered ticks (max_venue r) = false ->
  (forall cost lat,
     trade_of float_of_str ticks cost lat (has_spread_bps events) r
     = Ok None) /\
  (List.length trades < List.length (rows events))%nat.
Proof.
  intros Hmain Hr Hcarried Hlong Hshort.
  assert (Hdrop : forall cost lat,
    trade_of float_of_str ticks cost lat (has_spread_bps events) r
    = Ok None).
  { intros cost lat. apply trade_of_unresolved; [exact Hcarried|].
    left. apply nearest_mid_uncovered. exact Hlong. }
  split; [exact Hdrop|].
  destruct ticks as [|tk ticks].
  - unfold main in Hmain. destruct (rows events) as [|r0 rs];
      [destruct Hr|]. injection Hmain as <-. simpl. lia.
  - destruct (main_running float_of_str int_of_str cfg events (tk :: ticks)
                trades r Hmain Hr ltac:(discriminate))
      as (cost & _ & Hmk).
    destruct (make_trades_length float_of_str _ _ _ _ _ _ _ Hmk)
      as [_ Hlt].
    exact (Hlt r Hr (Hdrop _ _)).
Qed.

Lemma uncovered_event_dropped_witness :
  let events := {| has_spread_bps := false;
                   rows := [ {| start_ms := 0; end_ms := 10;
                                min_venue := "okx"%string;
                                max_venue := "kraken"%string;
                                spread_cell := PNone |};
                             {| start_ms := 20; end_ms := 30;
                                min_venue := "bitstamp"%string;
                                max_venue := "coinbase"%string;
                                spread_cell := PNone |} ] |} in
  let ticks := [Tick 0 "bitstamp"%string 100;
                Tick 1 "coinbase"%string 101] in
  exists trades,
    main (fun _ => None) (fun _ => None) [] events ticks = Ok trades /\
    (List.length trades < List.length (rows events))%nat.
Proof.
  intros events ticks. eexists. split; [reflexivity|].
  apply (uncovered_event_dropped (fun _ => None) (fun _ => None) []
           events ticks _
           {| start_ms := 0; end_ms := 10; min_venue := "okx"%string;
              max_venue := "kraken"%string; spread_cell := PNone |}
           eq_refl).
  - left. reflexivity.
  - reflexivity.
  - reflexivity.
  - reflexivity.
Defined.

End BacktestFacts.

(** * More facts about the as-of merge and the spread metric *)

Module MergerFacts.

Import DetectEvents DetectEventsFacts.

(** ** [min] and [max] over the items of [last_mid] *)

Lemma min_from_first items : forall best,
  exists l1 l2,
    best :: items = l1 ++ min_from best items :: l2 /\
    Forall (fun y => (snd (min_from best items) < snd y)%Q) l1 /\
    Forall (fun y => (snd (min_from best items) <= snd y)%Q) l2.
Proof.
  induction items as [|x items IH]; intro best.
  - exists [], []. repeat split; constructor.
  - simpl min_from. destruct (Qgtb (snd best) (snd x)) eqn:G.
    + apply Qgtb_true in G.
      destruct (IH x) as (l1 & l2 & E & H1 & H2).
      exists (best :: l1), l2. split; [simpl; rewrite <- E; reflexivity|].
      split; [|exact H2]. constructor; [|exact H1].
      apply Qle_lt_trans with (y := snd x); [|exact G].
      destruct l1 as [|a l1]; simpl in E.
      * injection E as E _. rewrite <- E. apply Qle_refl.
      * injection E as E _. subst a. inversion H1; subst.
        apply Qlt_le_weak. assumption.
    + apply Qgtb_false in G.
      destruct (IH best) as (l1 & l2 & E & H1 & H2).
      destruct l1 as [|a l1]; simpl in E.
      * injection E as Em El. exists [], (x :: l2).
        split; [simpl; rewrite <- Em, El; reflexivity|].
        split; [constructor|]. constructor; [|exact H2].
        rewrite <- Em. exact G.
      * injection E as Ea El. subst a.
        exists (best :: x :: l1), l2.
        split; [simpl; do 2 f_equal; exact El|]. split; [|exact H2].
        inversion H1 as [|? ? Hb H1']; subst.
        constructor; [exact Hb|]. constructor; [|exact H1'].
        exact (Qlt_le_trans _ _ _ Hb G).
Qed.

Lemma max_from_first items : forall best,
  exists l1 l2,
    best :: items = l1 ++ max_from best items :: l2 /\
    Forall (fun y => (snd y < snd (max_from best items))%Q) l1 /\
    Forall (fun y => (snd y <= snd (max_from best items))%Q) l2.
Proof.
  induction items as [|x items IH]; intro best.
  - exists [], []. repeat split; constructor.
  - simpl max_from. destruct (Qgtb (snd x) (snd best)) eqn:G.
    + apply Qgtb_true in G.
      destruct (IH x) as (l1 & l2 & E & H1 & H2).
      exists (best :: l1), l2. split; [simpl; rewrite <- E; reflexivity|].
      split; [|exact H2]. constructor; [|exact H1].
      apply Qlt_le_trans with (y := snd x); [exact G|].
      destruct l1 as [|a l1]; simpl in E.
      * injection E as E _. rewrite <- E. apply Qle_refl.
      * injection E as E _. subst a. inversion H1; subst.
        apply Qlt_le_weak. assumption.
    + apply Qgtb_false in G.
      destruct (IH best) as (l1 & l2 & E & H1 & H2).
      destruct l1 as [|a l1]; simpl in E.
      * injection E as Em El. exists [], (x :: l2).
        split; [simpl; rewrite <- Em, El; reflexivity|].
        split; [constructor|]. constructor; [|exact H2].
        rewrite <- Em. exact G.
      * injection E as Ea El. subst a.
        exists (best :: x :: l1), l2.
        split; [simpl; do 2 f_equal; exact El|]. split; [|exact H2].
        inversion H1 as [|? ? Hb H1']; subst.
        constructor; [exact Hb|]. constructor; [|exact H1'].
        exact (Qle_lt_trans _ _ _ G Hb).
Qed.

(** [min] and [max] with the key [x[1]] return the first item of least and
    of greatest value: every item before the result is strictly worse, no
    item after it is better; on no item they raise [ValueError]. *)
Theorem min_max_first_extreme (items : list (string * Q)) :
  (items = [] ->
   py_min items = Raise ValueError /\ py_max items = Raise ValueError) /\
  (items <> [] ->
   exists mn mx,
     py_min items = Ok mn /\ py_max items = Ok mx /\
     (exists l1 l2,
        items = l1 ++ mn :: l2 /\
        Forall (fun y => (snd mn < snd y)%Q) l1 /\
        Forall (fun y => (snd mn <= snd y)%Q) l2) /\
     (exists l1 l2,
        items = l1 ++ mx :: l2 /\
        Forall (fun y => (snd y < snd mx)%Q) l1 /\
        Forall (fun y => (snd y <= snd mx)%Q) l2)).
Proof.
  split.
  - intros ->. split; reflexivity.
  - intro Hne. destruct items as [|x items]; [congruence|].
    exists (min_from x items), (max_from x items).
    split; [reflexivity|]. split; [reflexivity|].
    split; [apply min_from_first|apply max_from_first].
Qed.

Lemma min_max_first_extreme_witness :
  let items := [("okx"%string, 101%Q); ("kraken"%string, 100%Q);
                ("bitstamp"%string, 100%Q); ("coinbase"%string, 101%Q)] in
  exists mn mx,
    py_min items = Ok mn /\ py_max items = Ok mx /\
    (exists l1 l2,
       items = l1 ++ mn :: l2 /\
       Forall (fun y => (snd mn < snd y)%Q) l1 /\
       Forall (fun y => (snd mn <= snd y)%Q) l2) /\
    (exists l1 l2,
       items = l1 ++ mx :: l2 /\
       Forall (fun y => (snd y < snd mx)%Q) l1 /\
       Forall (fun y => (snd y <= snd mx)%Q) l2).
Proof.
  intro items. apply (proj2 (min_max_first_extreme items)). discriminate.
Defined.

(** ** The keys of [last_mid] *)

Lemma dict_set_keys_old d k x :
  In k (map fst d) -> map fst (dict_set d k x) = map fst d.
Proof.
  induction d as [|[k' x'] d IH]; simpl; intro H; [destruct H|].
  destruct (String.eqb k' k) eqn:E; [reflexivity|].
  simpl. f_equal. apply IH. destruct H as [H|H]; [|exact H].
  apply String.eqb_neq in E. congruence.
Qed.

Lemma dict_set_keys_new d k x :
  ~ In k (map fst d) -> map fst (dict_set d k x) = map fst d ++ [k].
Proof.
  induction d as [|[k' x'] d IH]; simpl; intro H; [reflexivity|].
  destruct (String.eqb k' k) eqn:E.
  - apply String.eqb_eq in E. exfalso. apply H. left. exact E.
  - simpl. f_equal. apply IH. intro Hin. apply H. right. exact Hin.
Qed.

Lemma dict_set_keys d k x :
  NoDup (map fst d) ->
  NoDup (map fst (dict_set d k x)) /\
  (forall v, In v (map fst (dict_set d k x)) <-> In v (map fst d) \/ v = k) /\
  exists more, map fst (dict_set d k x) = map fst d ++ more.
Proof.
  intro Hnd. destruct (in_dec string_dec k (map fst d)) as [Hin|Hout].
  - rewrite (dict_set_keys_old d k x Hin). split; [exact Hnd|]. split.
    + intro v. split; [auto|]. intros [H | ->]; assumption.
    + exists []. rewrite app_nil_r. reflexivity.
  - rewrite (dict_set_keys_new d k x Hout). split; [|split].
    + apply NoDup_app; [exact Hnd|repeat constructor; intros []|].
      intros a Ha [<-|[]]. exact (Hout Ha).
    + intro v. rewrite in_app_iff. simpl. split.
      * intros [H|[<-|[]]]; auto.
      * intros [H | ->]; auto.
    + exists [k]. reflexivity.
Qed.

Lemma merge_from_keys ticks : forall st st',
  merge_from st ticks = Ok st' ->
  NoDup (map fst (last_mid st)) ->
  NoDup (map fst (last_mid st')) /\
  (forall v, In v (map fst (last_mid st')) <->
             In v (map fst (last_mid st)) \/ In v (map venue ticks)) /\
  exists more, map fst (last_mid st') = map fst (last_mid st) ++ more.
Proof.
  induction ticks as [|tk ticks IH]; intros st st' H Hnd; simpl in H.
  - injection H as <-. split; [exact Hnd|]. split.
    + intro v. simpl. tauto.
    + exists []. rewrite app_nil_r. reflexivity.
  - destruct (merge_step st tk) as [st1|] eqn:Hstep; [|discriminate H].
    cbn [bind] in H.
    destruct (merge_step_inv st tk st1 Hstep) as [Hlm _].
    destruct (dict_set_keys (last_mid st) (venue tk) (mid tk) Hnd)
      as (Hnd1 & Hin1 & more1 & Hm1).
    rewrite <- Hlm in Hnd1, Hin1, Hm1.
    destruct (IH st1 st' H Hnd1) as (Hnd' & Hin' & more & Hm).
    split; [exact Hnd'|]. split.
    + intro v. rewrite Hin', Hin1. simpl. intuition congruence.
    + exists (more1 ++ more). rewrite Hm, Hm1, app_assoc. reflexivity.
Qed.

(** The venue state has one entry per venue seen so far, without duplicate
    key, and only grows: its keys after a prefix of the ticks are the venues
    of that prefix, and the keys at the end of the run extend them in
    place. *)
Theorem venue_state_keys (prefix rest : list tick) (st_end : merge_state) :
  build_metrics (prefix ++ rest) = Ok st_end ->
  exists st,
    build_metrics prefix = Ok st /\
    NoDup (map fst (last_mid st)) /\
    (forall v, In v (map fst (last_mid st)) <-> In v (map venue prefix)) /\
    exists more, map fst (last_mid st_end) = map fst (last_mid st) ++ more.
Proof.
  unfold build_metrics. intro H. rewrite merge_from_app in H.
  destruct (merge_from merge_init prefix) as [st|] eqn:Hp; [|discriminate H].
  cbn [bind] in H. exists st. split; [reflexivity|].
  destruct (merge_from_keys prefix merge_init st Hp (NoDup_nil _))
    as (Hnd & Hin & _).
  split; [exact Hnd|]. split.
  - intro v. rewrite Hin. simpl. tauto.
  - destruct (merge_from_keys rest st st_end H Hnd) as (_ & _ & Hmore).
    exact Hmore.
Qed.

Lemma venue_state_keys_witness :
  let prefix := [Tick 0 "okx"%string 100; Tick 1 "kraken"%string 101;
                 Tick 2 "okx"%string 102] in
  let rest := [Tick 3 "bitstamp"%string 103] in
  exists st,
    build_metrics prefix = Ok st /\
    NoDup (map fst (last_mid st)) /\
    (forall v, In v (map fst (last_mid st)) <-> In v (map venue prefix)) /\
    exists more,
      ["okx"%string; "kraken"%string; "bitstamp"%string]
      = map fst (last_mid st) ++ more.
Proof.
  intros prefix rest.
  destruct (build_metrics (prefix ++ rest)) as [st_end|] eqn:E;
    [|discriminate E].
  pose proof (venue_state_keys prefix rest st_end E) as H.
  injection E as <-. exact H.
Defined.

(** ** The sample of a tick *)

Lemma merge_step_sample (st : merge_state) (tk : tick) (st' : merge_state) :
  merge_step st tk = Ok st' ->
  dict_get (last_mid st') (venue tk) = Some (mid tk) /\
  ((List.length (last_mid st') < 2)%nat ->
   metric_rows st' = metric_rows st) /\
  ((2 <= List.length (last_mid st'))%nat ->
   exists row,
     metric_rows st' = metric_rows st ++ [row] /\
     ts_ms row = tick_ts_ms tk /\
     In (min_venue row, min_mid row) (last_mid st') /\
     In (max_venue row, max_mid row) (last_mid st') /\
     Forall (fun kv => (min_mid row <= snd kv)%Q /\ (snd kv <= max_mid row)%Q)
       (last_mid st') /\
     ~ ((min_mid row + max_mid row) / 2 == 0)%Q /\
     spread_bps row =
     ((max_mid row - min_mid row) / ((min_mid row + max_mid row) / 2)
      * 10000)%Q).
Proof.
  intro Hstep.
  destruct (merge_step_inv st tk st' Hstep) as [Hlm Hfew].
  split; [rewrite Hlm, dict_get_set, String.eqb_refl; reflexivity|].
  split; [exact Hfew|].
  intro Hlen. rewrite Hlm in Hlen |- *. unfold merge_step in Hstep.
  destruct (dict_set (last_mid st) (venue tk) (mid tk)) as [|x items] eqn:E;
    [simpl in Hlen; lia|].
  replace (2 <=? List.length (x :: items))%nat with true in Hstep
    by (symmetry; apply Nat.leb_le; exact Hlen).
  cbn [py_min py_max bind] in Hstep.
  destruct (min_from_first items x) as (a1 & a2 & Ea & Ha1 & Ha2).
  destruct (max_from_first items x) as (b1 & b2 & Eb & Hb1 & Hb2).
  set (mn := min_from x items) in *. set (mx := max_from x items) in *.
  unfold float_div in Hstep.
  destruct (Qeq_bool ((snd mn + snd mx) / 2) 0) eqn:Hz;
    [discriminate Hstep|].
  cbn [bind] in Hstep. injection Hstep as <-.
  eexists. split; [reflexivity|].
  cbn [metric_rows last_mid ts_ms min_venue max_venue min_mid max_mid
       spread_bps].
  split; [reflexivity|].
  split; [rewrite <- surjective_pairing, Ea; apply in_elt|].
  split; [rewrite <- surjective_pairing, Eb; apply in_elt|].
  split; [|split; [|reflexivity]].
  - apply Forall_forall. intros kv Hkv. split.
    + rewrite Ea in Hkv. apply in_app_or in Hkv as [H|[<-|H]].
      * rewrite Forall_forall in Ha1. apply Qlt_le_weak, Ha1, H.
      * apply Qle_refl.
      * rewrite Forall_forall in Ha2. apply Ha2, H.
    + rewrite Eb in Hkv. apply in_app_or in Hkv as [H|[<-|H]].
      * rewrite Forall_forall in Hb1. apply Qlt_le_weak, Hb1, H.
      * apply Qle_refl.
      * rewrite Forall_forall in Hb2. apply Hb2, H.
  - intro Hq. apply Qeq_bool_iff in Hq. congruence.
Qed.

(** A step of the merge stores the tick's mid under its venue and, once two
    venues are known, appends exactly one sample: it carries the tick's
    timestamp, its two venue entries are entries of the updated state that
    bound every entry from below and from above, and its spread is the one of
    these two mids.  Before two venues are known no sample is appended. *)
Theorem sample_of_snapshot (st : merge_state) (tk : tick) (st' : merge_state) :
  merge_step st tk = Ok st' ->
  dict_get (last_mid st') (venue tk) = Some (mid tk) /\
  ((List.length (last_mid st') < 2)%nat ->
   metric_rows st' = metric_rows st) /\
  ((2 <= List.length (last_mid st'))%nat ->
   exists row,
     metric_rows st' = metric_rows st ++ [row] /\
     ts_ms row = tick_ts_ms tk /\
     In (min_venue row, min_mid row) (last_mid st') /\
     In (max_venue row, max_mid row) (last_mid st') /\
     Forall (fun kv => (min_mid row <= snd kv)%Q /\ (snd kv <= max_mid row)%Q)
       (last_mid st') /\
     ~ ((min_mid row + max_mid row) / 2 == 0)%Q /\
     spread_bps row =
     ((max_mid row - min_mid row) / ((min_mid row + max_mid row) / 2)
      * 10000)%Q).
Proof. exact (merge_step_sample st tk st'). Qed.

Lemma sample_of_snapshot_witness :
  let st := {| last_mid := [("okx"%string, 100%Q); ("kraken"%string, 101%Q)];
               metric_rows := [] |} in
  let tk := Tick 7 "okx"%string 103 in
  exists st',
    merge_step st tk = Ok st' /\
    dict_get (last_mid st') "okx" = Some 103%Q /\
    exists row,
      metric_rows st' = [row] /\ ts_ms row = 7 /\
      In (min_venue row, min_mid row) (last_mid st') /\
      In (max_venue row, max_mid row) (last_mid st').
Proof.
  intros st tk.
  destruct (merge_step st tk) as [st'|] eqn:E; [|discriminate E].
  exists st'. split; [reflexivity|].
  destruct (sample_of_snapshot st tk st' E) as (Hget & _ & Hrow).
  split; [exact Hget|].
  injection E as <-.
  destruct (Hrow ltac:(simpl; lia)) as (row & Hr & Hts & Hmin & Hmax & _).
  exists row. repeat split; assumption.
Defined.

(** ** The spread of a sample *)






(** ** One sample per tick *)

Lemma dict_set_length d k x :
  (List.length d <= List.length (dict_set d k x))%nat.
Proof.
  induction d as [|[k' x'] d IH]; simpl; [lia|].
  destruct (String.eqb k' k); simpl; lia.
Qed.

Lemma merge_from_full ticks : forall st st',
  (2 <= List.length (last_mid st))%nat ->
  merge_from st ticks = Ok st' ->
  map ts_ms (metric_rows st') =
  map ts_ms (metric_rows st) ++ map tick_ts_ms ticks.
Proof.
  induction ticks as [|tk ticks IH]; intros st st' Hlen H; simpl in H.
  - injection H as <-. simpl. rewrite app_nil_r. reflexivity.
  - destruct (merge_step st tk) as [st1|] eqn:E; [|discriminate H].
    cbn [bind] in H.
    destruct (merge_step_inv st tk st1 E) as [Hlm _].
    assert (Hlen1 : (2 <= List.length (last_mid st1))%nat).
    { rewrite Hlm.
      pose proof (dict_set_length (last_mid st) (venue tk) (mid tk)). lia. }
    destruct (merge_step_sample st tk st1 E) as (_ & _ & Hrow).
    destruct (Hrow Hlen1) as (row & Hr & Hts & _).
    rewrite (IH st1 st' Hlen1 H), Hr, map_app. simpl.
    rewrite Hts, <- app_assoc. reflexivity.
Qed.

Lemma merge_from_single_state v0 ticks : forall st st',
  (last_mid st = [] \/ exists m, last_mid st = [(v0, m)]) ->
  Forall (fun tk => venue tk = v0) ticks ->
  merge_from st ticks = Ok st' ->
  (ticks = [] /\ st' = st) \/ exists m, last_mid st' = [(v0, m)].
Proof.
  induction ticks as [|tk ticks IH]; intros st st' Hlm Hall H; simpl in H.
  - injection H as <-. left. split; reflexivity.
  - right. inversion Hall as [|? ? Hv Hall']; subst.
    destruct (merge_step st tk) as [st1|] eqn:Hstep; [|discriminate H].
    cbn [bind] in H.
    destruct (merge_step_inv st tk st1 Hstep) as [Hlm1 _].
    assert (Hone : exists m, last_mid st1 = [(venue tk, m)]).
    { rewrite Hlm1. destruct Hlm as [->|[m ->]]; simpl.
      - eauto.
      - rewrite String.eqb_refl. eauto. }
    destruct (IH st1 st' (or_intror Hone) Hall' H) as [[_ ->]|Hm];
      assumption.
Qed.

Lemma samples_after_second_venue (a : list tick) (t : tick) (b : list tick)
    (v0 : string) (st : merge_state) :
  a <> [] ->
  Forall (fun tk => venue tk = v0) a ->
  venue t <> v0 ->
  build_metrics (a ++ t :: b) = Ok st ->
  map ts_ms (metric_rows st) = map tick_ts_ms (t :: b).
Proof.
  intros Hne Hall Hv H. unfold build_metrics in H.
  rewrite merge_from_app in H.
  destruct (merge_from merge_init a) as [st0|] eqn:Ha; [|discriminate H].
  cbn [bind merge_from] in H.
  destruct (merge_step st0 t) as [st1|] eqn:Et; [|discriminate H].
  cbn [bind] in H.
  pose proof (merge_from_single v0 a merge_init st0
                (or_introl eq_refl) Hall Ha) as Hrows0.
  destruct (merge_from_single_state v0 a merge_init st0
              (or_introl eq_refl) Hall Ha) as [[Hnil _]|[m Hm]];
    [congruence|].
  destruct (merge_step_inv st0 t st1 Et) as [Hlm1 _].
  assert (Hlen1 : (2 <= List.length (last_mid st1))%nat).
  { rewrite Hlm1, Hm. simpl.
    replace (String.eqb v0 (venue t)) with false; [simpl; lia|].
    symmetry. apply String.eqb_neq. congruence. }
  destruct (merge_step_sample st0 t st1 Et) as (_ & _ & Hrow).
  destruct (Hrow Hlen1) as (row & Hr & Hts & _).
  rewrite (merge_from_full b st1 st Hlen1 H), Hr, Hrows0. simpl.
  rewrite Hts. reflexivity.
Qed.

(** The metric stream is not down-sampled: from the first tick of a second
    venue on, every tick yields exactly one sample, with the tick's
    timestamp, and the ticks before it yield none. *)
Theorem one_sample_per_tick (a : list tick) (t : tick) (b : list tick)
    (v0 : string) (st : merge_state) :
  a <> [] ->
  Forall (fun tk => venue tk = v0) a ->
  venue t <> v0 ->
  build_metrics (a ++ t :: b) = Ok st ->
  map ts_ms (metric_rows st) = map tick_ts_ms (t :: b).
Proof. exact (samples_after_second_venue a t b v0 st). Qed.

Lemma one_sample_per_tick_witness :
  exists st,
    build_metrics ([Tick 0 "okx"%string 100; Tick 3 "okx"%string 101]
                   ++ Tick 4 "kraken"%string 102
                   :: [Tick 6 "okx"%string 100; Tick 9 "kraken"%string 100])
    = Ok st /\
    map ts_ms (metric_rows st) = [4; 6; 9].
Proof.
  eexists. split; [reflexivity|].
  apply (one_sample_per_tick
           [Tick 0 "okx"%string 100; Tick 3 "okx"%string 101]
           (Tick 4 "kraken"%string 102)
           [Tick 6 "okx"%string 100; Tick 9 "kraken"%string 100]
           "okx"%string).
  - discriminate.
  - repeat constructor.
  - discriminate.
  - reflexivity.
Defined.

(** ** From the ticks to the events *)

Lemma first_other_venue v0 (l : list tick) :
  Forall (fun tk => venue tk = v0) l \/
  exists a t b,
    l = a ++ t :: b /\ Forall (fun tk => venue tk = v0) a /\ venue t <> v0.
Proof.
  induction l as [|x l IH]; [left; constructor|].
  destruct (string_dec (venue x) v0) as [E|N].
  - destruct IH as [Hall|(a & t & b & -> & Ha & Ht)].
    + left. constructor; assumption.
    + right. exists (x :: a), t, b.
      split; [reflexivity|]. split; [constructor; assumption|exact Ht].
  - right. exists [], x, l. split; [reflexivity|]. split; [constructor|exact N].
Qed.

Lemma sorted_suffix (l1 l2 : list Z) :
  Sorted Z.le (l1 ++ l2) -> Sorted Z.le l2.
Proof.
  induction l1 as [|x l1 IH]; simpl; intro H; [exact H|].
  apply Sorted_inv in H as [H _]. exact (IH H).
Qed.

Lemma metrics_sorted ticks st :
  Sorted Z.le (map tick_ts_ms ticks) ->
  build_metrics ticks = Ok st ->
  Sorted Z.le (map ts_ms (metric_rows st)).
Proof.
  intros Hs Hb. destruct ticks as [|t0 ticks].
  - unfold build_metrics in Hb. simpl in Hb. injection Hb as <-. constructor.
  - destruct (first_other_venue (venue t0) ticks)
      as [Hall|(a & t & b & E & Ha & Ht)].
    + unfold build_metrics in Hb.
      rewrite (merge_from_single (venue t0) (t0 :: ticks) merge_init st
                 (or_introl eq_refl) (Forall_cons _ eq_refl Hall) Hb).
      constructor.
    + subst ticks.
      rewrite (samples_after_second_venue (t0 :: a) t b (venue t0) st
                 ltac:(discriminate) (Forall_cons _ eq_refl Ha) Ht Hb).
      change (t0 :: a ++ t :: b) with ((t0 :: a) ++ t :: b) in Hs.
      rewrite map_app in Hs. exact (sorted_suffix _ _ Hs).
Qed.

(** The whole script on a tick table in ascending timestamp order: whenever
    it returns, the events pass the persistence filter, each starts no later
    than it ends, and each starts at or after the end of the one before it;
    on positive mids it does return. *)
Theorem main_events_ordered (th : Q) (p : Z) (ticks : list tick) :
  Sorted Z.le (map tick_ts_ms ticks) ->
  (forall evs,
     main th p ticks = Ok evs ->
     Forall (passes p) evs /\
     Forall (fun e => start_ms e <= end_ms e) evs /\
     (forall i e1 e2,
        nth_error evs i = Some e1 -> nth_error evs (S i) = Some e2 ->
        end_ms e1 <= start_ms e2)) /\
  (Forall (fun tk => (0 < mid tk)%Q) ticks ->
   exists evs, main th p ticks = Ok evs).
Proof.
  intro Hs. split.
  - intros evs H. unfold main in H.
    destruct (build_metrics ticks) as [st|] eqn:Hb; [|discriminate H].
    cbn [bind] in H.
    pose proof (metrics_sorted ticks st Hs Hb) as Hrows.
    destruct (detect_total th p (metric_rows st)) as (evs1 & Hd1 & Hpass).
    destruct (detect_ordered th p (metric_rows st) Hrows)
      as (evs2 & Hd2 & Hse & Hsort).
    rewrite H in Hd1, Hd2. injection Hd1 as <-. injection Hd2 as <-.
    split; [exact Hpass|]. split; [exact Hse|].
    exact (sorted_adjacent evs Hsort).
  - intro Hpos. unfold main.
    destruct (build_metrics_positive ticks Hpos) as (st & -> & _).
    cbn [bind].
    destruct (detect_total th p (metric_rows st)) as (evs & Hd & _).
    exists evs. exact Hd.
Qed.

Lemma main_events_ordered_witness :
  let ticks := [Tick 0 "okx"%string 100; Tick 10 "kraken"%string 101;
                Tick 20 "okx"%string 101; Tick 30 "kraken"%string 100;
                Tick 40 "okx"%string 100] in
  exists evs,
    main 50 5 ticks = Ok evs /\
    Forall (passes 5) evs /\
    Forall (fun e => start_ms e <= end_ms e) evs.
Proof.
  intro ticks.
  assert (Hs : Sorted Z.le (map tick_ts_ms ticks))
    by (simpl; repeat (constructor; try (simpl; lia))).
  destruct (proj2 (main_events_ordered 50 5 ticks Hs)) as (evs & He);
    [repeat constructor|].
  exists evs. split; [exact He|].
  destruct (proj1 (main_events_ordered 50 5 ticks Hs) evs He)
    as (Hp & Ho & _).
  split; assumption.
Defined.

End MergerFacts.


(** * More facts about the event extractor *)

Module ExtractorFacts.

Import DetectEvents DetectEventsFacts.

Section Grounded.

Variable th : Q.
Variable p : Z.

Lemma last_in (l : list metric_row) : forall a, In (last l a) (a :: l).
Proof.
  induction l as [|b l IH]; intro a; [left; reflexivity|].
  rewrite last_cons_shift. right. apply IH.
Qed.

Lemma grounded_more seen seen' e :
  incl seen seen' -> grounded th seen e -> grounded th seen' e.
Proof.
  intros Hi (Hpk & (r1 & H1 & A1) & (r2 & H2 & A2) & (r3 & H3 & A3)).
  split; [exact Hpk|].
  split; [exists r1; split; [apply Hi; exact H1|exact A1]|].
  split; [exists r2; split; [apply Hi; exact H2|exact A2]|].
  exists r3. split; [apply Hi; exact H3|exact A3].
Qed.

Lemma step_grounded seen st r st' :
  step th p st r = Ok st' ->
  Forall (grounded th seen) (events st) -> grounded_open th seen st ->
  Forall (grounded th (seen ++ [r])) (events st') /\
  grounded_open th (seen ++ [r]) st'.
Proof.
  intros Hstep Hev Hopen.
  assert (Hi : incl seen (seen ++ [r])) by (apply incl_appl, incl_refl).
  assert (Hr : In r (seen ++ [r])) by (apply in_or_app; right; left;
                                       reflexivity).
  assert (Hev' : Forall (grounded th (seen ++ [r])) (events st)).
  { revert Hev. apply Forall_impl. intro e. apply grounded_more. exact Hi. }
  assert (Ha : armed st).
  { intro Hin. destruct (Hopen Hin) as (s & pk & pv & A & B & C & _).
    exists s, pk, pv. repeat split; assumption. }
  destruct (in_event st) eqn:Hin; destruct (above th r) eqn:Hab.
  - destruct (Hopen Hin)
      as (s & pk & pv & Hs & Hp & Hv & (r1 & H1 & A1 & T1)
          & (r3 & H3 & A3 & S3 & V3)).
    destruct (armed_inside st Ha Hin) as (s' & pk' & pv' & E).
    rewrite E in Hs, Hp, Hv. simpl in Hs, Hp, Hv.
    injection Hs as ->. injection Hp as ->. injection Hv as ->.
    rewrite E in Hstep. rewrite step_stay in Hstep by assumption.
    injection Hstep as <-.
    destruct (Qgtb (spread_bps r) pk); (split; [exact Hev'|]); intros _.
    + exists s, (spread_bps r), (min_venue r, max_venue r).
      repeat (split; [reflexivity|]). split.
      * exists r1. split; [apply Hi; exact H1|]. split; assumption.
      * exists r. repeat split; assumption.
    + exists s, pk, pv. repeat (split; [reflexivity|]). split.
      * exists r1. split; [apply Hi; exact H1|]. split; assumption.
      * exists r3. split; [apply Hi; exact H3|]. repeat split; assumption.
  - destruct (Hopen Hin)
      as (s & pk & pv & Hs & Hp & Hv & (r1 & H1 & A1 & T1)
          & (r3 & H3 & A3 & S3 & V3)).
    destruct (armed_inside st Ha Hin) as (s' & pk' & pv' & E).
    rewrite E in Hs, Hp, Hv. simpl in Hs, Hp, Hv.
    injection Hs as ->. injection Hp as ->. injection Hv as ->.
    rewrite E in Hstep. rewrite step_exit in Hstep by assumption.
    injection Hstep as <-. cbn [events]. split.
    + apply Forall_app. split; [exact Hev'|].
      destruct (ts_ms r - s >=? p); constructor; [|constructor].
      split; [|split; [|split]]; cbn.
      * rewrite <- S3. apply Qgeb_true. exact A3.
      * exists r1. split; [apply Hi; exact H1|]. split; assumption.
      * exists r. split; [exact Hr|reflexivity].
      * exists r3. split; [apply Hi; exact H3|]. rewrite <- V3.
        repeat split; assumption.
    + intro H. discriminate H.
  - rewrite step_enter in Hstep by assumption. injection Hstep as <-.
    split; [exact Hev'|]. intros _.
    exists (ts_ms r), (spread_bps r), (min_venue r, max_venue r).
    repeat (split; [reflexivity|]).
    split; exists r; repeat split; assumption.
  - rewrite step_idle in Hstep by assumption. injection Hstep as <-.
    split; [exact Hev'|]. intro H. congruence.
Qed.

Lemma scan_grounded rows : forall seen st st',
  scan th p st rows = Ok st' ->
  Forall (grounded th seen) (events st) -> grounded_open th seen st ->
  Forall (grounded th (seen ++ rows)) (events st') /\
  grounded_open th (seen ++ rows) st'.
Proof.
  induction rows as [|r rows IH]; intros seen st st' H Hev Hopen; simpl in H.
  - injection H as <-. rewrite app_nil_r. split; assumption.
  - destruct (step th p st r) as [st1|] eqn:Hstep; [|discriminate H].
    cbn [bind] in H.
    destruct (step_grounded seen st r st1 Hstep Hev Hopen) as [Hev1 Hopen1].
    replace (seen ++ r :: rows) with ((seen ++ [r]) ++ rows)
      by (rewrite <- app_assoc; reflexivity).
    exact (IH (seen ++ [r]) st1 st' H Hev1 Hopen1).
Qed.

Lemma detect_grounded rows :
  exists evs,
    detect th p rows = Ok evs /\ Forall (grounded th rows) evs.
Proof.
  destruct (detect_total th p rows) as (evs & Hd & _).
  exists evs. split; [exact Hd|].
  destruct rows as [|a rows]; [injection Hd as <-; constructor|].
  rewrite detect_cons in Hd.
  destruct (scan th p init_state (a :: rows)) as [st|] eqn:Hs;
    [|discriminate Hd].
  cbn [bind] in Hd.
  destruct (scan_grounded (a :: rows) [] init_state st Hs)
    as [Hev Hopen]; [constructor|intro H; discriminate H|].
  simpl app in Hev, Hopen.
  unfold close_trailing in Hd. destruct (in_event st) eqn:Hin.
  - destruct (Hopen Hin)
      as (s & pk & pv & Hst & Hp & Hv & (r1 & H1 & A1 & T1)
          & (r3 & H3 & A3 & S3 & V3)).
    rewrite last_ts_cons in Hd. cbn [bind] in Hd. rewrite Hst in Hd.
    unfold make_event in Hd. rewrite Hp, Hv in Hd.
    destruct (ts_ms (last rows a) - s >=? p); cbn [bind] in Hd;
      injection Hd as <-; [|exact Hev].
    apply Forall_app. split; [exact Hev|]. constructor; [|constructor].
    split; [|split; [|split]]; cbn.
    + rewrite <- S3. apply Qgeb_true. exact A3.
    + exists r1. repeat split; assumption.
    + exists (last rows a). split; [apply last_in|reflexivity].
    + exists r3. split; [exact H3|]. rewrite <- V3. repeat split; assumption.
  - injection Hd as <-. exact Hev.
Qed.

End Grounded.

(** Every event is read off the samples: its peak reaches the threshold and
    is the spread of a sample whose venue pair it records, its start is the
    timestamp of a sample at or above the threshold and its end the
    timestamp of a sample.  So a stream that stays below the threshold has no
    event. *)
Theorem events_from_samples (th : Q) (p : Z) (rows : list metric_row) :
  (exists evs,
     detect th p rows = Ok evs /\
     Forall (fun e =>
               (th <= peak_bps e)%Q /\
               (exists r, In r rows /\ (th <= spread_bps r)%Q /\
                          ts_ms r = start_ms e) /\
               (exists r, In r rows /\ ts_ms r = end_ms e) /\
               (exists r, In r rows /\ spread_bps r = peak_bps e /\
                          min_venue r = e_min_venue e /\
                          max_venue r = e_max_venue e)) evs) /\
  (Forall (fun r => (spread_bps r < th)%Q) rows -> detect th p rows = Ok []).
Proof.
  destruct (detect_grounded th p rows) as (evs & Hd & Hg).
  split.
  - exists evs. split; [exact Hd|]. revert Hg. apply Forall_impl.
    intros e (Hpk & (r1 & H1 & A1 & T1) & Hend & (r3 & H3 & _ & S3 & V3)).
    split; [exact Hpk|].
    split; [exists r1; split; [exact H1|]; split;
            [apply Qgeb_true; exact A1|exact T1]|].
    split; [exact Hend|]. exists r3. split; [exact H3|]. split; assumption.
  - intro Hlow. rewrite Hd. f_equal.
    destruct evs as [|e evs]; [reflexivity|]. exfalso.
    inversion Hg as [|? ? (_ & (r1 & H1 & A1 & _) & _) _]; subst.
    rewrite Forall_forall in Hlow. apply Qgeb_true in A1.
    exact (Qlt_not_le _ _ (Hlow r1 H1) A1).
Qed.

Lemma events_from_samples_witness :
  detect 5 0 [MetricRow 0 "okx" "kraken" 100 101 3;
              MetricRow 10 "okx" "kraken" 100 101 4.9;
              MetricRow 20 "kraken" "okx" 100 101 1]
  = Ok [].
Proof.
  apply (proj2 (events_from_samples 5 0 _)).
  repeat constructor.
Defined.

(** ** The persistence filter as a filter *)

Section Filter.

Variable th : Q.
Variables p1 p2 : Z.
Hypothesis Hle : p1 <= p2.

Lemma keep_app (evs : list event) (e : event) :
  filter (fun e => duration_ms e >=? p2)
    (evs ++ (if duration_ms e >=? p1 then [e] else [])) =
  filter (fun e => duration_ms e >=? p2) evs ++
  (if duration_ms e >=? p2 then [e] else []).
Proof.
  rewrite filter_app. f_equal.
  destruct (duration_ms e >=? p2) eqn:G2.
  - replace (duration_ms e >=? p1) with true
      by (symmetry; apply Z.geb_le; apply Z.geb_le in G2; lia).
    simpl. rewrite G2. reflexivity.
  - destruct (duration_ms e >=? p1); simpl; [rewrite G2|]; reflexivity.
Qed.

Lemma step_filter st r :
  armed st ->
  exists st',
    step th p1 st r = Ok st' /\ armed st' /\
    step th p2
      {| events := filter (fun e => duration_ms e >=? p2) (events st);
         in_event := in_event st; start := start st; peak := peak st;
         peak_v := peak_v st |} r =
    Ok {| events := filter (fun e => duration_ms e >=? p2) (events st');
          in_event := in_event st'; start := start st'; peak := peak st';
          peak_v := peak_v st' |}.
Proof.
  intro Ha.
  destruct (step_total th p1 st r Ha) as (st' & Hstep & Ha' & _).
  exists st'. split; [exact Hstep|]. split; [exact Ha'|].
  destruct (in_event st) eqn:Hin; destruct (above th r) eqn:Hab.
  - destruct (armed_inside st Ha Hin) as (s & pk & pv & E).
    rewrite E in Hstep |- *. rewrite step_stay in Hstep by assumption.
    injection Hstep as <-. cbn [events in_event start peak peak_v inside].
    change {| events := ?evs; in_event := true; start := Some s;
              peak := Some pk; peak_v := Some pv |}
      with (inside evs s pk pv).
    rewrite step_stay by assumption.
    destruct (Qgtb (spread_bps r) pk); reflexivity.
  - destruct (armed_inside st Ha Hin) as (s & pk & pv & E).
    rewrite E in Hstep |- *. rewrite step_exit in Hstep by assumption.
    injection Hstep as <-. cbn [events in_event start peak peak_v inside].
    change {| events := ?evs; in_event := true; start := Some s;
              peak := Some pk; peak_v := Some pv |}
      with (inside evs s pk pv).
    rewrite step_exit by assumption. do 2 f_equal.
    set (e := {| start_ms := s; end_ms := ts_ms r;
                 duration_ms := ts_ms r - s; peak_bps := pk;
                 e_min_venue := fst pv; e_max_venue := snd pv;
                 n_points := None |}).
    exact (eq_sym (keep_app (events st) e)).
  - rewrite step_enter in Hstep by assumption. injection Hstep as <-.
    rewrite step_enter by first [assumption|reflexivity]. reflexivity.
  - rewrite step_idle in Hstep by assumption. injection Hstep as <-.
    rewrite step_idle by first [assumption|reflexivity].
    rewrite Hin. reflexivity.
Qed.

Lemma scan_filter rows : forall st,
  armed st ->
  exists st',
    scan th p1 st rows = Ok st' /\ armed st' /\
    scan th p2
      {| events := filter (fun e => duration_ms e >=? p2) (events st);
         in_event := in_event st; start := start st; peak := peak st;
         peak_v := peak_v st |} rows =
    Ok {| events := filter (fun e => duration_ms e >=? p2) (events st');
          in_event := in_event st'; start := start st'; peak := peak st';
          peak_v := peak_v st' |}.
Proof.
  induction rows as [|r rows IH]; intros st Ha; simpl.
  - exists st. repeat split; [exact Ha].
  - destruct (step_filter st r Ha) as (st1 & -> & Ha1 & ->). cbn [bind].
    exact (IH st1 Ha1).
Qed.

Lemma detect_filter rows :
  exists evs1,
    detect th p1 rows = Ok evs1 /\
    detect th p2 rows = Ok (filter (fun e => duration_ms e >=? p2) evs1).
Proof.
  destruct rows as [|a rows]; [exists []; split; reflexivity|].
  rewrite !detect_cons.
  destruct (scan_filter (a :: rows) init_state armed_init)
    as (st & Hs1 & Ha & Hs2).
  change {| events := filter _ (events init_state); in_event := _;
            start := _; peak := _; peak_v := _ |}
    with init_state in Hs2.
  rewrite Hs1, Hs2. cbn [bind]. unfold close_trailing.
  cbn [in_event start events].
  destruct (in_event st) eqn:Hin.
  - destruct (armed_inside st Ha Hin) as (s & pk & pv & E).
    rewrite last_ts_cons. cbn [bind]. rewrite E.
    cbn [start inside events]. unfold make_event. cbn [peak peak_v inside].
    set (e := {| start_ms := s; end_ms := ts_ms (last rows a);
                 duration_ms := ts_ms (last rows a) - s; peak_bps := pk;
                 e_min_venue := fst pv; e_max_venue := snd pv;
                 n_points := None |}).
    pose proof (keep_app (events st) e) as K. cbn [duration_ms e] in K.
    rewrite E in K. cbn [events inside] in K.
    destruct (ts_ms (last rows a) - s >=? p1);
      destruct (ts_ms (last rows a) - s >=? p2); cbn [bind];
      eexists; (split; [reflexivity|]); rewrite ?app_nil_r in K;
      rewrite ?app_nil_r; f_equal; symmetry; exact K.
  - eexists. split; reflexivity.
Qed.

End Filter.

(** Raising [persistence_ms] only removes events: the events found with the
    larger value are those found with the smaller one whose duration reaches
    the larger value, in the same order. *)
Theorem persistence_is_a_filter (th : Q) (p1 p2 : Z)
    (rows : list metric_row) :
  p1 <= p2 ->
  exists evs1,
    detect th p1 rows = Ok evs1 /\
    detect th p2 rows = Ok (filter (fun e => duration_ms e >=? p2) evs1).
Proof.
  intro Hle. exact (detect_filter th p1 p2 Hle rows).
Qed.

Lemma persistence_is_a_filter_witness :
  let row (t : Z) (b : Q) :=
    MetricRow t "okx"%string "kraken"%string 100 101 b in
  exists evs1,
    detect 5 0 [row 0 6%Q; row 20 4%Q; row 30 8%Q; row 400 3%Q; row 500 9%Q]
    = Ok evs1 /\
    detect 5 300 [row 0 6%Q; row 20 4%Q; row 30 8%Q; row 400 3%Q; row 500 9%Q]
    = Ok (filter (fun e => duration_ms e >=? 300) evs1).
Proof.
  intro row. apply persistence_is_a_filter. lia.
Defined.

(** ** The peak of an interval is its first greatest sample *)

Lemma peak_of_first run : forall pk pv,
  (peak_of pk pv run = (pk, pv) /\
   Forall (fun y => (spread_bps y <= pk)%Q) run) \/
  exists l1 x l2,
    run = l1 ++ x :: l2 /\
    peak_of pk pv run = (spread_bps x, (min_venue x, max_venue x)) /\
    (pk < spread_bps x)%Q /\
    Forall (fun y => (spread_bps y < spread_bps x)%Q) l1 /\
    Forall (fun y => (spread_bps y <= spread_bps x)%Q) l2.
Proof.
  induction run as [|r run IH]; intros pk pv; simpl.
  - left. split; [reflexivity|constructor].
  - destruct (Qgtb (spread_bps r) pk) eqn:G.
    + apply Qgtb_true in G. right.
      destruct (IH (spread_bps r) (min_venue r, max_venue r))
        as [[E Hall]|(l1 & x & l2 & -> & E & Hx & H1 & H2)].
      * exists [], r, run. repeat split; assumption || constructor.
      * exists (r :: l1), x, l2. split; [reflexivity|]. split; [exact E|].
        split; [exact (Qlt_trans _ _ _ G Hx)|].
        split; [constructor; assumption|exact H2].
    + apply Qgtb_false in G.
      destruct (IH pk pv) as [[E Hall]|(l1 & x & l2 & -> & E & Hx & H1 & H2)].
      * left. split; [exact E|constructor; assumption].
      * right. exists (r :: l1), x, l2. split; [reflexivity|].
        split; [exact E|]. split; [exact Hx|].
        split; [|exact H2]. constructor; [|exact H1].
        exact (Qle_lt_trans _ _ _ G Hx).
Qed.

(** An interval closed in mid-stream and long enough is appended as one
    event, from the first sample of the run to the sample that closed it; its
    peak is the greatest spread of the run and its venue pair is that of the
    first sample with this spread. *)
Theorem closed_interval_peak (th : Q) (p : Z) (pre : list metric_row)
    (r : metric_row) (run : list metric_row) (b : metric_row) :
  outside_after th pre = true ->
  forallb (above th) (r :: run) = true ->
  above th b = false ->
  p <= ts_ms b - ts_ms r ->
  exists st0 st1 e l1 x l2,
    scan th p init_state pre = Ok st0 /\
    scan th p init_state (pre ++ r :: run ++ [b]) = Ok st1 /\
    events st1 = events st0 ++ [e] /\
    start_ms e = ts_ms r /\ end_ms e = ts_ms b /\
    r :: run = l1 ++ x :: l2 /\
    peak_bps e = spread_bps x /\
    e_min_venue e = min_venue x /\ e_max_venue e = max_venue x /\
    Forall (fun y => (spread_bps y < spread_bps x)%Q) l1 /\
    Forall (fun y => (spread_bps y <= spread_bps x)%Q) l2.
Proof.
  intros Hpre Hrun Hb Hlong.
  destruct (interval_closed th p pre r run b Hpre Hrun Hb)
    as (st0 & st1 & Hs0 & Hs1 & _ & Hev).
  replace (ts_ms b - ts_ms r >=? p) with true in Hev
    by (symmetry; apply Z.geb_le; exact Hlong).
  exists st0, st1, (interval_event r run (ts_ms b)).
  unfold interval_event in Hev |- *.
  cbn [start_ms end_ms peak_bps e_min_venue e_max_venue].
  destruct (peak_of_first run (spread_bps r) (min_venue r, max_venue r))
    as [[E Hall]|(l1 & x & l2 & Erun & E & Hx & H1 & H2)].
  - exists [], r, run. rewrite E in Hev |- *. cbn [fst snd] in Hev |- *.
    repeat (split; [first [assumption|reflexivity|constructor]|]).
    exact Hall.
  - exists (r :: l1), x, l2. rewrite E in Hev |- *.
    cbn [fst snd] in Hev |- *.
    repeat (split; [first [assumption|reflexivity]|]).
    split; [rewrite Erun; reflexivity|].
    repeat (split; [first [assumption|reflexivity]|]).
    split; [constructor; assumption|exact H2].
Qed.

Lemma closed_interval_peak_witness :
  let row (t : Z) (v w : string) (b : Q) := MetricRow t v w 100 101 b in
  exists st0 st1 e l1 x l2,
    scan 5 10 init_state [row 0 "a"%string "b"%string 1%Q] = Ok st0 /\
    scan 5 10 init_state
      ([row 0 "a"%string "b"%string 1%Q] ++
       row 10 "a"%string "b"%string 6%Q ::
       [row 20 "b"%string "c"%string 9%Q; row 30 "c"%string "a"%string 9%Q] ++ [row 40 "a"%string "b"%string 2%Q])
    = Ok st1 /\
    events st1 = events st0 ++ [e] /\
    start_ms e = 10 /\ end_ms e = 40 /\
    row 10 "a"%string "b"%string 6%Q :: [row 20 "b"%string "c"%string 9%Q; row 30 "c"%string "a"%string 9%Q]
    = l1 ++ x :: l2 /\
    peak_bps e = spread_bps x /\
    e_min_venue e = min_venue x /\ e_max_venue e = max_venue x /\
    Forall (fun y => (spread_bps y < spread_bps x)%Q) l1 /\
    Forall (fun y => (spread_bps y <= spread_bps x)%Q) l2.
Proof.
  intro row.
  apply (closed_interval_peak 5 10 [row 0 "a"%string "b"%string 1%Q]
           (row 10 "a"%string "b"%string 6%Q)
           [row 20 "b"%string "c"%string 9%Q; row 30 "c"%string "a"%string 9%Q]
           (row 40 "a"%string "b"%string 2%Q)); try reflexivity.
  simpl. lia.
Defined.

End ExtractorFacts.

(** * More facts about the backtest *)

Module TradeFacts.

Import Backtest BacktestFacts.

(** ** Nearest-timestamp lookup *)






(** ** The spread of a trade *)

Section Spread.

Variable float_of_str : string -> option Q.
Variable int_of_str : string -> option Z.


End Spread.


(** ** The trades of a run *)

Section Run.

Variable float_of_str : string -> option Q.
Variable int_of_str : string -> option Z.



End Run.




(** ** When a run fails *)



(** ** The outcome of the cost model *)

Section CostOutcome.

Variable float_of_str : string -> option Q.



End CostOutcome.


(** ** Events whose venues have ticks *)

Section Covered.

Variable float_of_str : string -> option Q.
Variable int_of_str : string -> option Z.




End Covered.




End TradeFacts.


(** * Facts about the configuration and the query of the ticks *)

Module ConfigFacts.

Import Backtest Config.



(** ** The lookback window *)

Lemma max_ts_spec rest : forall tk,
  (forall t, In t (tk :: rest) -> tick_ts_ms t <= max_ts tk rest) /\
  exists t, In t (tk :: rest) /\ tick_ts_ms t = max_ts tk rest.
Proof.
  unfold max_ts.
  assert (G : forall m,
    m <= fold_left (fun m t => Z.max m (tick_ts_ms t)) rest m /\
    (forall t, In t rest ->
       tick_ts_ms t <= fold_left (fun m t => Z.max m (tick_ts_ms t)) rest m) /\
    (fold_left (fun m t => Z.max m (tick_ts_ms t)) rest m = m \/
     exists t, In t rest /\
       tick_ts_ms t = fold_left (fun m t => Z.max m (tick_ts_ms t)) rest m)).
  { induction rest as [|x rest IH]; intro m; simpl.
    - split; [lia|]. split; [intros t []|left; reflexivity].
    - destruct (IH (Z.max m (tick_ts_ms x))) as (H1 & H2 & H3).
      split; [lia|]. split.
      + intros t [<-|Ht]; [lia|exact (H2 t Ht)].
      + destruct H3 as [E|(t & Ht & E)].
        * destruct (Z.max_spec m (tick_ts_ms x)) as [[_ Hm]|[_ Hm]].
          -- right. exists x. split; [left; reflexivity|]. lia.
          -- left. lia.
        * right. exists t. split; [right; exact Ht|exact E]. }
  intro tk. destruct (G (tick_ts_ms tk)) as (H1 & H2 & H3). split.
  - intros t [<-|Ht]; [exact H1|exact (H2 t Ht)].
  - destruct H3 as [E|(t & Ht & E)].
    + exists tk. split; [left; reflexivity|symmetry; exact E].
    + exists t. split; [right; exact Ht|exact E].
Qed.

Lemma filter_sorted_suffix (c : Z) (l : list tick) :
  Sorted Z.le (map tick_ts_ms l) ->
  exists older,
    l = older ++ filter (fun t => c <=? tick_ts_ms t) l /\
    Forall (fun t => tick_ts_ms t < c) older.
Proof.
  intro Hs. apply Sorted_StronglySorted in Hs;
    [|intros x y z; apply Z.le_trans].
  induction l as [|t l IH]; [exists []; split; [reflexivity|constructor]|].
  simpl in Hs. apply StronglySorted_inv in Hs as [Hs Hall].
  simpl. destruct (c <=? tick_ts_ms t) eqn:E.
  - apply Z.leb_le in E. exists []. split; [|constructor]. simpl. f_equal.
    symmetry. apply forallb_filter_id. apply forallb_forall. intros u Hu.
    apply Z.leb_le. rewrite Forall_forall in Hall.
    specialize (Hall (tick_ts_ms u) (in_map _ _ _ Hu)). lia.
  - apply Z.leb_gt in E. destruct (IH Hs) as (older & Ho & Hold).
    exists (t :: older). split; [simpl; f_equal; exact Ho|].
    constructor; assumption.
Qed.

(** The ticks that detect_events.py reads are the ticks of the table at most
    [lookback_min] minutes older than its latest tick, in the order of the
    table; with a non-negative lookback the latest ticks are among them; and
    on a table in ascending timestamp order they are the end of the table,
    every tick before them being older than the window. *)
Theorem lookback_window (lookback_min : Z) (tk : tick) (rest : list tick) :
  let table := tk :: rest in
  let start_ts := max_ts tk rest - lookback_min * 60 * 1000 in
  (forall t, In t (lookback_ticks lookback_min table) <->
             In t table /\ start_ts <= tick_ts_ms t) /\
  (0 <= lookback_min ->
   exists t, In t (lookback_ticks lookback_min table) /\
             forall u, In u table -> tick_ts_ms u <= tick_ts_ms t) /\
  (Sorted Z.le (map tick_ts_ms table) ->
   exists older,
     table = older ++ lookback_ticks lookback_min table /\
     Forall (fun t => tick_ts_ms t < start_ts) older).
Proof.
  intros table start_ts.
  assert (Hw : lookback_ticks lookback_min table =
               filter (fun t => start_ts <=? tick_ts_ms t) table)
    by reflexivity.
  split; [|split].
  - intro t. rewrite Hw, filter_In, Z.leb_le. reflexivity.
  - intro Hlb. destruct (max_ts_spec rest tk) as (Hmax & t & Ht & Et).
    exists t. split.
    + rewrite Hw. apply filter_In. split; [exact Ht|].
      apply Z.leb_le. unfold start_ts. lia.
    + intros u Hu. rewrite Et. exact (Hmax u Hu).
  - intro Hs. rewrite Hw. apply filter_sorted_suffix. exact Hs.
Qed.

Lemma lookback_window_witness :
  let tk := Tick 0 "okx"%string 100 in
  let rest := [Tick 30000 "kraken"%string 101; Tick 60000 "okx"%string 102;
               Tick 90000 "kraken"%string 103] in
  (exists t, In t (lookback_ticks 1 (tk :: rest)) /\
             forall u, In u (tk :: rest) -> tick_ts_ms u <= tick_ts_ms t) /\
  (exists older,
     tk :: rest = older ++ lookback_ticks 1 (tk :: rest) /\
     Forall (fun t => tick_ts_ms t < max_ts tk rest - 1 * 60 * 1000) older).
Proof.
  intros tk rest. split.
  - apply (proj1 (proj2 (lookback_window 1 tk rest))). lia.
  - apply (proj2 (proj2 (lookback_window 1 tk rest))).
    simpl. repeat (constructor; try (simpl; lia)).
Defined.

End ConfigFacts.


(** * From detect_events.py to backtest.py *)

Module PipelineFacts.

Import DetectEvents DetectEventsFacts MergerFacts ExtractorFacts.








End PipelineFacts.

(** * Facts about scripts/collect_ticks.py *)

Module CollectTicksFacts.

Import CollectTicks.

Section Venues.

Variable upper : string -> string.

Lemma supported_has_fetcher v :
  existsb (String.eqb v) VENUES_SUPPORTED = true ->
  In v VENUES_SUPPORTED /\ exists f, lookup FETCHERS v = Some f.
Proof.
  intro H. apply existsb_exists in H as (w & Hw & E).
  apply String.eqb_eq in E. subst w. split; [exact Hw|].
  simpl in Hw. destruct Hw as [<-|[<-|[<-|[]]]]; eexists; reflexivity.
Qed.

(** The venues polled are the configured venues whose upper-case name is
    supported, in the order of the configuration and with its repetitions;
    each of them has a fetcher, so [FETCHERS[venue]] never fails; and the
    script stops with [ValueError] exactly when no configured venue is
    supported. *)
Theorem select_venues_supported (venues_cfg : list string) :
  (forall venues,
     select_venues upper venues_cfg = Ok venues ->
     venues <> [] /\
     venues =
     filter (fun v => existsb (String.eqb v) VENUES_SUPPORTED)
       (map upper venues_cfg) /\
     Forall (fun v => In v VENUES_SUPPORTED /\
                      exists f, lookup FETCHERS v = Some f) venues) /\
  (select_venues upper venues_cfg = Raise ValueError <->
   Forall (fun v => ~ In (upper v) VENUES_SUPPORTED) venues_cfg).
Proof.
  assert (Hfm : map upper
                  (filter (fun v => existsb (String.eqb (upper v))
                                      VENUES_SUPPORTED) venues_cfg) =
                filter (fun v => existsb (String.eqb v) VENUES_SUPPORTED)
                  (map upper venues_cfg)).
  { induction venues_cfg as [|v l IH]; [reflexivity|]. cbn [filter map].
    destruct (existsb (String.eqb (upper v)) VENUES_SUPPORTED);
      cbn [filter map]; rewrite IH; reflexivity. }
  unfold select_venues. rewrite Hfm.
  set (sel := filter (fun v => existsb (String.eqb v) VENUES_SUPPORTED)
                (map upper venues_cfg)).
  split.
  - intros venues H. destruct sel as [|x sel'] eqn:E; [discriminate H|].
    injection H as <-. split; [discriminate|]. split; [reflexivity|].
    apply Forall_forall. intros v Hv. rewrite <- E in Hv. unfold sel in Hv.
    apply filter_In in Hv as [_ Hv]. exact (supported_has_fetcher v Hv).
  - split.
    + intro H. destruct sel as [|x sel'] eqn:E; [|discriminate H].
      apply Forall_forall. intros v Hv Hin.
      assert (Hs : In (upper v) sel).
      { unfold sel. apply filter_In. split; [apply in_map; exact Hv|].
        apply existsb_exists. exists (upper v).
        split; [exact Hin|apply String.eqb_refl]. }
      rewrite E in Hs. exact Hs.
    + intro Hall. destruct sel as [|x sel'] eqn:E; [reflexivity|]. exfalso.
      assert (Hx : In x sel) by (rewrite E; left; reflexivity).
      unfold sel in Hx. apply filter_In in Hx as [Hx Hsup].
      apply in_map_iff in Hx as (v & <- & Hv).
      rewrite Forall_forall in Hall.
      exact (Hall v Hv (proj1 (supported_has_fetcher _ Hsup))).
Qed.

End Venues.

Lemma select_venues_supported_witness :
  let upper := fun s : string => if String.eqb s "kraken" then "KRAKEN"%string
                                 else s in
  (exists venues,
     select_venues upper ["kraken"%string; "BINANCE"%string;
                          "COINBASE"%string] = Ok venues /\
     venues <> [] /\
     Forall (fun v => In v VENUES_SUPPORTED /\
                      exists f, lookup FETCHERS v = Some f) venues) /\
  select_venues upper ["BINANCE"%string] = Raise ValueError.
Proof.
  intro upper. split.
  - eexists. split; [reflexivity|].
    destruct (proj1 (select_venues_supported upper
                       ["kraken"%string; "BINANCE"%string;
                        "COINBASE"%string]) _ eq_refl)
      as (Hne & _ & Hall).
    split; assumption.
  - apply (proj2 (select_venues_supported upper ["BINANCE"%string])).
    constructor; [|constructor].
    simpl. intros [H|[H|[H|[]]]]; discriminate H.
Defined.

(** ** One round of polling *)

Lemma same_key_iff a b :
  same_key a b = true <-> ts_ms a = ts_ms b /\ row_venue a = row_venue b.
Proof.
  unfold same_key. rewrite andb_true_iff, Z.eqb_eq, String.eqb_eq.
  reflexivity.
Qed.

Lemma insert_or_replace_in table row r :
  In r (insert_or_replace table row) <->
  r = row \/ (In r table /\ same_key r row = false).
Proof.
  unfold insert_or_replace. rewrite in_app_iff, filter_In, negb_true_iff.
  simpl. split.
  - intros [H|[H|[]]]; auto.
  - intros [H|H]; auto.
Qed.

Lemma insert_or_replace_keys table row :
  NoDup (map (fun r => (ts_ms r, row_venue r)) table) ->
  NoDup (map (fun r => (ts_ms r, row_venue r))
           (insert_or_replace table row)).
Proof.
  intro Hnd. unfold insert_or_replace. rewrite map_app.
  apply NoDup_app.
  - induction table as [|a table IH]; [constructor|].
    simpl in Hnd |- *. inversion Hnd as [|? ? Ha Hnd']; subst.
    destruct (negb (same_key a row)); [|apply IH; exact Hnd'].
    simpl. constructor; [|apply IH; exact Hnd'].
    intro Hin. apply Ha. apply in_map_iff in Hin as (x & Ex & Hx).
    apply filter_In in Hx as [Hx _].
    apply in_map_iff. exists x. split; assumption.
  - repeat constructor. intros [].
  - intros k Hk [<-|[]].
    apply in_map_iff in Hk as (x & Ex & Hx).
    apply filter_In in Hx as [_ Hx]. apply negb_true_iff in Hx.
    assert (Hs : same_key x row = true).
    { apply same_key_iff. injection Ex as E1 E2. split; assumption. }
    congruence.
Qed.

Section Round.

Variable ts : Z.

(** What a round keeps true of the table and of the counter. *)
Lemma poll_venue_inv table n call table' n' :
  poll_venue ts (table, n) call = (table', n') ->
  (NoDup (map (fun r => (ts_ms r, row_venue r)) table) ->
   NoDup (map (fun r => (ts_ms r, row_venue r)) table')) /\
  (forall r, In r table' ->
     In r table \/
     (ts_ms r = ts /\ (row_mid r == (bid r + ask r) / 2)%Q /\
      row_venue r = fst call /\ snd call = Ok (bid r, ask r))) /\
  (forall r, In r table -> ts_ms r <> ts -> In r table') /\
  n <= n' <= n + 1 /\
  ((forall ba, snd call <> Ok ba) -> table' = table /\ n' = n).
Proof.
  destruct call as [v response]. unfold poll_venue.
  destruct (lookup FETCHERS v) as [f|];
    [destruct response as [[b a]|e]|]; intro H; injection H as <- <-.
  - split; [apply insert_or_replace_keys|]. split; [|split; [|split]].
    + intros r Hr. apply insert_or_replace_in in Hr as [->|[Hr _]];
        [right|left; exact Hr].
      cbn. repeat split; reflexivity.
    + intros r Hr Hts. apply insert_or_replace_in. right.
      split; [exact Hr|]. destruct (same_key _ _) eqn:E; [|reflexivity].
      apply same_key_iff in E as [E _]. simpl in E. congruence.
    + lia.
    + intro Hno. exfalso. exact (Hno (b, a) eq_refl).
  - repeat split; auto; lia.
  - repeat split; auto; lia.
Qed.

Lemma poll_round_inv calls : forall table n table' n',
  poll_round ts (table, n) calls = (table', n') ->
  (NoDup (map (fun r => (ts_ms r, row_venue r)) table) ->
   NoDup (map (fun r => (ts_ms r, row_venue r)) table')) /\
  (forall r, In r table' ->
     In r table \/
     (ts_ms r = ts /\ (row_mid r == (bid r + ask r) / 2)%Q /\
      In (row_venue r, Ok (bid r, ask r)) calls)) /\
  (forall r, In r table -> ts_ms r <> ts -> In r table') /\
  n <= n' <= n + Z.of_nat (List.length calls) /\
  (Forall (fun call => forall ba, snd call <> Ok ba) calls ->
   table' = table /\ n' = n).
Proof.
  unfold poll_round.
  induction calls as [|call calls IH]; intros table n table' n' H;
    cbn [fold_left] in H.
  - injection H as <- <-. repeat split; auto; simpl; lia.
  - destruct (poll_venue ts (table, n) call) as [table1 n1] eqn:E.
    destruct (poll_venue_inv table n call table1 n1 E)
      as (K1 & N1 & O1 & C1 & F1).
    destruct (IH table1 n1 table' n' H) as (K2 & N2 & O2 & C2 & F2).
    split; [auto|]. split; [|split; [|split]].
    + intros r Hr. destruct (N2 r Hr) as [Hr1|(A & B & C)].
      * destruct (N1 r Hr1) as [Hr0|(A & B & C & D)]; [left; exact Hr0|].
        right. split; [exact A|]. split; [exact B|]. left.
        destruct call as [v resp]. simpl in C, D. subst. reflexivity.
      * right. split; [exact A|]. split; [exact B|]. right. exact C.
    + intros r Hr Hts. apply O2; [apply O1|]; assumption.
    + simpl List.length. lia.
    + intro Hall. inversion Hall as [|? ? Hc Hall']; subst.
      destruct (F1 Hc) as [-> ->]. exact (F2 Hall').
Qed.

End Round.

(** One round of polling at time [ts] keeps the primary key [(ts_ms, venue)]
    unique, leaves the rows of other times in the table, adds only rows of
    time [ts] that hold the bid and ask of an answer of the round and their
    midpoint as mid, counts at most one row per call, and changes nothing
    when every fetch fails. *)
Theorem poll_round_table (ts : Z) (table : list tick_row) (n : Z)
    (calls : list (string * result (Q * Q))) (table' : list tick_row)
    (n' : Z) :
  poll_round ts (table, n) calls = (table', n') ->
  (NoDup (map (fun r => (ts_ms r, row_venue r)) table) ->
   NoDup (map (fun r => (ts_ms r, row_venue r)) table')) /\
  (forall r, In r table' ->
     In r table \/
     (ts_ms r = ts /\ (row_mid r == (bid r + ask r) / 2)%Q /\
      In (row_venue r, Ok (bid r, ask r)) calls)) /\
  (forall r, In r table -> ts_ms r <> ts -> In r table') /\
  n <= n' <= n + Z.of_nat (List.length calls) /\
  (Forall (fun call => forall ba, snd call <> Ok ba) calls ->
   table' = table /\ n' = n).
Proof. exact (poll_round_inv ts calls table n table' n'). Qed.

Lemma poll_round_table_witness :
  let old := {| ts_ms := 1000; row_venue := "KRAKEN"%string; bid := 99;
                ask := 101; row_mid := 100 |} in
  let calls := [("KRAKEN"%string, Ok (100%Q, 102%Q));
                ("COINBASE"%string, Raise ValueError);
                ("BITSTAMP"%string, Ok (101%Q, 103%Q))] in
  exists table' n',
    poll_round 2000 ([old], 1) calls = (table', n') /\
    NoDup (map (fun r => (ts_ms r, row_venue r)) table') /\
    In old table' /\ 1 <= n' <= 1 + 3.
Proof.
  intros old calls.
  destruct (poll_round 2000 ([old], 1) calls) as [table' n'] eqn:E.
  exists table', n'. split; [reflexivity|].
  destruct (poll_round_table 2000 [old] 1 calls table' n' E)
    as (K & _ & O & C & _).
  split; [apply K; repeat constructor; intros []|].
  split; [apply O; [left; reflexivity|discriminate]|exact C].
Defined.

End CollectTicksFacts.

(** * The spread does not depend on the unit of the prices *)

Module ScaleFacts.

Import DetectEvents DetectEventsFacts.

Section Scale.

Variable k : Q.
Hypothesis Hk : (0 < k)%Q.









End Scale.



End ScaleFacts.
